(** * ruler: agent selection, rule concatenation, raw-config mapping and the
    apply/revert file protocol.

    A shallow embedding of
      - [src/core/RuleProcessor.ts]      ([concatenateRules]),
      - the agent selector               ([resolveSelectedAgents]),
      - [constants]                      ([ERROR_PREFIX], [createRulerError]),
      - the raw-config mapper            ([mapRawAgentConfigs]),
    together with a model of the backup/write/revert steps on a finite-map
    file system.

    Conventions.  JavaScript strings are modelled as [string] restricted to
    the ASCII range: [toLowerCase] maps [A-Z] to [a-z] and leaves every other
    character alone, [trim] strips the ASCII white space characters.  A
    function that throws returns [Throw e]; one that returns normally
    returns [Return v].  Paths follow the POSIX flavour of Node's [path]. *)

From Stdlib Require Import Ascii String List Bool Arith Lia.
From stdpp Require Import base option list gmap strings.

Local Open Scope stdpp_scope.

(* ===================================================================== *)
(** ** JavaScript string and array primitives used by the sources        *)
(* ===================================================================== *)

Module Js.

(** The line feed, written ['\n'] in the sources. *)
Definition LF : string := String "010"%char "".

(** [c.toLowerCase()] on one ASCII character. *)
Definition lowerChar (c : ascii) : ascii :=
  let n := nat_of_ascii c in
  if (65 <=? n) && (n <=? 90) then ascii_of_nat (n + 32) else c.

(** [s.toLowerCase()]. *)
Fixpoint toLowerCase (s : string) : string :=
  match s with
  | EmptyString => EmptyString
  | String c s' => String (lowerChar c) (toLowerCase s')
  end.

(** [s.startsWith(p)]. *)
Fixpoint startsWith (s p : string) {struct p} : bool :=
  match p, s with
  | EmptyString, _ => true
  | String _ _, EmptyString => false
  | String b p', String a s' => Ascii.eqb a b && startsWith s' p'
  end.

(** [s.includes(sub)]: [sub] occurs in [s] as a contiguous substring. *)
Fixpoint includes (s sub : string) : bool :=
  startsWith s sub ||
  match s with
  | EmptyString => false
  | String _ s' => includes s' sub
  end.

(** White space removed by [String.prototype.trim] (ASCII part):
    TAB, LF, VT, FF, CR and SPACE. *)
Definition isWhiteSpace (c : ascii) : bool :=
  let n := nat_of_ascii c in
  ((9 <=? n) && (n <=? 13)) || (n =? 32).

Fixpoint trimStart (s : string) : string :=
  match s with
  | EmptyString => EmptyString
  | String c s' => if isWhiteSpace c then trimStart s' else s
  end.

Fixpoint trimEnd (s : string) : string :=
  match s with
  | EmptyString => EmptyString
  | String c s' =>
      match trimEnd s' with
      | EmptyString => if isWhiteSpace c then EmptyString else String c EmptyString
      | t => String c t
      end
  end.

(** [s.trim()]. *)
Definition trim (s : string) : string := trimEnd (trimStart s).

(** [arr.join(sep)] on an array of strings. *)
Fixpoint join (sep : string) (arr : list string) : string :=
  match arr with
  | [] => ""
  | [x] => x
  | x :: rest => x +:+ sep +:+ join sep rest
  end.

(** [s.split(sep)] for a one-character separator. *)
Fixpoint split (sep : ascii) (s : string) : list string :=
  match s with
  | EmptyString => [""]
  | String c s' =>
      if Ascii.eqb c sep then "" :: split sep s'
      else match split sep s' with
           | [] => [String c ""]
           | seg :: rest => String c seg :: rest
           end
  end.

(** [new Set(arr)]: the distinct elements in order of first insertion;
    [[...set]] is then the list itself. *)
Definition Set_add (s : list string) (x : string) : list string :=
  if bool_decide (x ∈ s) then s else s ++ [x].

Definition new_Set (arr : list string) : list string := foldl Set_add [] arr.

(** [set.has(x)]. *)
Definition Set_has (s : list string) (x : string) : bool := bool_decide (x ∈ s).

(** An [Error] object; only its [message] is ever set by the sources. *)
Record Error : Type := mkError { message : string }.

(** The outcome of a call that may throw. *)
Inductive Completion (A : Type) : Type :=
| Return (v : A)
| Throw (e : Error).

Arguments Return {A} v.
Arguments Throw {A} e.

End Js.

(* ===================================================================== *)
(** ** Node's [path] module, POSIX flavour                               *)
(* ===================================================================== *)

Module NodePath.

Definition SEP : ascii := "/"%char.

(** One step of path normalisation over a stack of segments kept in
    reverse order: empty segments and ["."] vanish, [".."] pops (and is
    dropped at the root). *)
Definition pushSegment (stack : list string) (seg : string) : list string :=
  if String.eqb seg "" || String.eqb seg "." then stack
  else if String.eqb seg ".." then tail stack
  else seg :: stack.

Definition normalizeSegments (segs : list string) : list string :=
  rev (foldl pushSegment [] segs).

Definition isAbsolute (p : string) : bool := Js.startsWith p "/".

(** [path.resolve(p)] with the working directory [cwd] (an absolute path),
    as the list of segments below the root. *)
Definition resolve (cwd p : string) : list string :=
  if isAbsolute p then normalizeSegments (Js.split SEP p)
  else normalizeSegments (Js.split SEP cwd ++ Js.split SEP p).

(** Drops the longest common prefix of two segment lists. *)
Fixpoint dropCommon (from to : list string) : list string * list string :=
  match from, to with
  | f :: from', t :: to' =>
      if String.eqb f t then dropCommon from' to' else (from, to)
  | _, _ => (from, to)
  end.

(** [path.relative(from, to)]: one [".."] for every segment of [from]
    below the common ancestor, then the rest of [to]. *)
Definition relative (cwd from to : string) : string :=
  let '(up, down) := dropCommon (resolve cwd from) (resolve cwd to) in
  Js.join "/" (map (fun _ => "..") up ++ down).

End NodePath.

(* ===================================================================== *)
(** ** [src/core/RuleProcessor.ts]                                       *)
(* ===================================================================== *)

(** An element of the [files] argument: [{ path: string; content: string }]. *)
Record RuleFile : Type := mkRuleFile { path : string; content : string }.

(** [baseDir || process.cwd()]: an absent or empty [baseDir] is falsy. *)
Definition baseOf (cwd : string) (baseDir : option string) : string :=
  match baseDir with
  | Some b => if String.eqb b "" then cwd else b
  | None => cwd
  end.

(** The callback of [files.map]: one labelled section. *)
Definition section_of (base cwd : string) (f : RuleFile) : string :=
  let rel := NodePath.relative cwd base (path f) in
  Js.join Js.LF ["---"; "Source: " +:+ rel; "---"; Js.trim (content f); ""].

(** [concatenateRules(files, baseDir)]; [cwd] is the value of
    [process.cwd()] at the time of the call. *)
Definition concatenateRules (cwd : string) (files : list RuleFile)
    (baseDir : option string) : string :=
  let base := baseOf cwd baseDir in
  let sections := map (section_of base cwd) files in
  Js.join Js.LF sections.

(* ===================================================================== *)
(** ** [constants]: the error prefix and the error constructor           *)
(* ===================================================================== *)

Definition ERROR_PREFIX : string := "[ruler]".

(** [createRulerError(message, context?)]; an absent or empty [context] is
    falsy and leaves the message without its parenthesis. *)
Definition createRulerError (message : string) (context : option string) : Js.Error :=
  let fullMessage :=
    match context with
    | Some c =>
        if String.eqb c "" then ERROR_PREFIX +:+ " " +:+ message
        else ERROR_PREFIX +:+ " " +:+ message +:+ " (Context: " +:+ c +:+ ")"
    | None => ERROR_PREFIX +:+ " " +:+ message
    end in
  Js.mkError fullMessage.

(* ===================================================================== *)
(** ** The agent selector                                                *)
(* ===================================================================== *)

(** The part of the [IAgent] interface the selector and the mapper call:
    [getIdentifier()] and [getName()]. *)
Record IAgent : Type := mkAgent { getIdentifier : string; getName : string }.

(** [IAgentConfig]: the optional [enabled] flag and [outputPath] override. *)
Record IAgentConfig : Type :=
  mkAgentConfig { enabled : option bool; outputPath : option string }.

(** [LoadedConfig]; an absent optional field is [None]. *)
Record LoadedConfig : Type := mkConfig {
  cliAgents : option (list string);
  defaultAgents : option (list string);
  agentConfigs : gmap string IAgentConfig
}.

(** [xs && xs.length > 0]. *)
Definition nonEmpty (xs : option (list string)) : bool :=
  match xs with
  | Some (_ :: _) => true
  | _ => false
  end.

(** The elements of an optional array that passed [nonEmpty]. *)
Definition elementsOf (xs : option (list string)) : list string := default [] xs.

(** [new Set(allAgents.map((agent) => agent.getIdentifier()))]. *)
Definition validAgentIdentifiers (allAgents : list IAgent) : list string :=
  Js.new_Set (map getIdentifier allAgents).

(** [new Set(allAgents.map((agent) => agent.getName().toLowerCase()))]. *)
Definition validAgentNames (allAgents : list IAgent) : list string :=
  Js.new_Set (map (fun agent => Js.toLowerCase (getName agent)) allAgents).

(** The validation callback: the filter is no identifier and occurs in no
    lower-cased display name. *)
Definition isInvalid (allAgents : list IAgent) (filter : string) : bool :=
  negb (Js.Set_has (validAgentIdentifiers allAgents) filter) &&
  negb (existsb (fun name => Js.includes name filter) (validAgentNames allAgents)).

(** [filters.filter(...)]: the local [invalidAgents]. *)
Definition invalidAgents (allAgents : list IAgent) (filters : list string) : list string :=
  List.filter (isInvalid allAgents) filters.

(** [agent.getIdentifier() === f || agent.getName().toLowerCase().includes(f)]. *)
Definition agentMatches (agent : IAgent) (f : string) : bool :=
  String.eqb (getIdentifier agent) f ||
  Js.includes (Js.toLowerCase (getName agent)) f.

(** [config.agentConfigs[identifier]?.enabled]. *)
Definition enabledOverride (config : LoadedConfig) (identifier : string) : option bool :=
  match agentConfigs config !! identifier with
  | Some cfg => enabled cfg
  | None => None
  end.

(** The selection callback of the [default_agents] branch. *)
Definition selectedByDefaults (config : LoadedConfig) (defaults : list string)
    (agent : IAgent) : bool :=
  let identifier := getIdentifier agent in
  match enabledOverride config identifier with
  | Some override => override
  | None => existsb (agentMatches agent) defaults
  end.

(** The selection callback of the last branch: [enabled !== false]. *)
Definition notDisabled (config : LoadedConfig) (agent : IAgent) : bool :=
  match enabledOverride config (getIdentifier agent) with
  | Some false => false
  | _ => true
  end.

(** [resolveSelectedAgents(config, allAgents)]. *)
Definition resolveSelectedAgents (config : LoadedConfig) (allAgents : list IAgent)
    : Js.Completion (list IAgent) :=
  if nonEmpty (cliAgents config) then
    let filters := map Js.toLowerCase (elementsOf (cliAgents config)) in
    let invalid := invalidAgents allAgents filters in
    if (0 <? length invalid)%nat then
      Js.Throw (createRulerError
        ("Invalid agent specified: " +:+ Js.join ", " invalid)
        (Some ("Valid agents are: " +:+ Js.join ", " (validAgentIdentifiers allAgents))))
    else
      Js.Return (List.filter (fun agent => existsb (agentMatches agent) filters) allAgents)
  else if nonEmpty (defaultAgents config) then
    let defaults := map Js.toLowerCase (elementsOf (defaultAgents config)) in
    let invalid := invalidAgents allAgents defaults in
    if (0 <? length invalid)%nat then
      Js.Throw (createRulerError
        ("Invalid agent specified in default_agents: " +:+ Js.join ", " invalid)
        (Some ("Valid agents are: " +:+ Js.join ", " (validAgentIdentifiers allAgents))))
    else
      Js.Return (List.filter (selectedByDefaults config defaults) allAgents)
  else
    Js.Return (List.filter (notDisabled config) allAgents).

(* ===================================================================== *)
(** ** The raw-config mapper                                             *)
(* ===================================================================== *)

(** The inner [for (const agent of agents)] loop for one entry of [raw]:
    every agent the key matches gets [mappedConfigs[identifier] = cfg]. *)
Definition assignEntry (agents : list IAgent)
    (mappedConfigs : gmap string IAgentConfig) (entry : string * IAgentConfig)
    : gmap string IAgentConfig :=
  let '(key, cfg) := entry in
  let lowerKey := Js.toLowerCase key in
  foldl (fun acc agent =>
           let identifier := getIdentifier agent in
           if agentMatches agent lowerKey then <[identifier := cfg]> acc else acc)
        mappedConfigs agents.

(** [mapRawAgentConfigs(raw, agents)]; [raw] is given as [Object.entries(raw)],
    the key/value pairs in the record's own iteration order. *)
Definition mapRawAgentConfigs (raw : list (string * IAgentConfig))
    (agents : list IAgent) : gmap string IAgentConfig :=
  foldl (assignEntry agents) ∅ raw.

(* ===================================================================== *)
(** ** The apply / revert file protocol                                  *)
(* ===================================================================== *)

Module Engine.

(** Modelled from the spec: the file helpers of [src/core/FileSystemUtils]
    ([backupFile], [writeGeneratedFile]), the apply engine and [src/revert]
    ([revertAllAgentConfigs]) are exercised by the agent tests but their
    bodies are not available.  The file system is a finite map from
    resolved paths to file contents, and each operation below is the
    per-agent step described for one resolved output path. *)
Definition DEFAULT_BACKUP_SUFFIX : string := ".bak".

(** Modelled from the spec: the backup artifact of an output path is the
    path with the backup suffix appended; the suffix can be overridden. *)
Definition backupPathOf (backupSuffixOverride : option string) (p : string) : string :=
  p +:+ default DEFAULT_BACKUP_SUFFIX backupSuffixOverride.

(** Modelled from the spec: apply step 1.  If a file exists at the output
    path it is copied to the backup artifact, overwriting a prior backup;
    otherwise nothing happens. *)
Definition backupFile (fs : gmap string string) (p : string) : gmap string string :=
  match fs !! p with
  | Some c => <[backupPathOf None p := c]> fs
  | None => fs
  end.

(** Modelled from the spec: apply step 2.  The text is written to the
    output path, overwriting any existing content. *)
Definition writeGeneratedFile (fs : gmap string string) (p text : string)
    : gmap string string :=
  <[p := text]> fs.

(** Modelled from the spec: the apply engine for one agent, backup first,
    then write. *)
Definition applyAgent (fs : gmap string string) (p rules : string)
    : gmap string string :=
  writeGeneratedFile (backupFile fs p) p rules.

(** Modelled from the spec: the revert engine for one agent.  With a
    backup artifact present its content is copied back and the artifact is
    deleted unless [keepBackups]; with none, a generated file is deleted;
    with neither, nothing happens. *)
Definition revertAgent (backupSuffixOverride : option string) (keepBackups : bool)
    (fs : gmap string string) (p : string) : gmap string string :=
  let b := backupPathOf backupSuffixOverride p in
  match fs !! b with
  | Some c =>
      let restored := <[p := c]> fs in
      if keepBackups then restored else delete b restored
  | None =>
      match fs !! p with
      | Some _ => delete p fs
      | None => fs
      end
  end.

End Engine.

(* ===================================================================== *)
(** ** The selection rules in the words of the specification             *)
(* ===================================================================== *)

(** An agent matches an entry when, after lower-casing the entry, it equals
    the agent's identifier or occurs in the lower-cased display name. *)
Definition matchesEntry (a : IAgent) (e : string) : Prop :=
  getIdentifier a = Js.toLowerCase e ∨
  Js.includes (Js.toLowerCase (getName a)) (Js.toLowerCase e) = true.

(** The agent matches at least one entry of the list. *)
Definition matchesAny (a : IAgent) (entries : list string) : Prop :=
  Exists (matchesEntry a) entries.

(** The entry names at least one agent of the registry. *)
Definition entryValid (allAgents : list IAgent) (e : string) : Prop :=
  Exists (fun a => matchesEntry a e) allAgents.

(** Tier 2: an explicit [enabled] flag decides; otherwise the default list. *)
Definition tier2Selects (config : LoadedConfig) (defaults : list string)
    (a : IAgent) : Prop :=
  match enabledOverride config (getIdentifier a) with
  | Some flag => flag = true
  | None => matchesAny a defaults
  end.

(** Tier 3: everything that is not explicitly disabled. *)
Definition tier3Selects (config : LoadedConfig) (a : IAgent) : Prop :=
  enabledOverride config (getIdentifier a) ≠ Some false.

#[global] Instance matchesEntry_dec a e : Decision (matchesEntry a e).
Proof. unfold matchesEntry. apply _. Defined.

#[global] Instance matchesAny_dec a entries : Decision (matchesAny a entries).
Proof. unfold matchesAny. apply _. Defined.

#[global] Instance entryValid_dec allAgents e : Decision (entryValid allAgents e).
Proof. unfold entryValid. apply _. Defined.

#[global] Instance tier2Selects_dec config defaults a :
  Decision (tier2Selects config defaults a).
Proof. unfold tier2Selects. destruct (enabledOverride _ _); apply _. Defined.

#[global] Instance tier3Selects_dec config a : Decision (tier3Selects config a).
Proof. unfold tier3Selects. apply _. Defined.

(** A raw key reaches the identifier [id] when it matches some agent that
    carries this identifier. *)
Definition keyHits (agents : list IAgent) (id key : string) : Prop :=
  Exists (fun b => getIdentifier b = id ∧ matchesEntry b key) agents.

#[global] Instance keyHits_dec agents id key : Decision (keyHits agents id key).
Proof. unfold keyHits. apply _. Defined.

(** A plain path segment: a name without separator that is neither empty
    nor one of the two dot segments. *)
Definition plainSegment (s : string) : Prop :=
  Js.includes s "/" = false ∧ s ≠ "" ∧ s ≠ "." ∧ s ≠ "..".

(** The header of the failure message for each validated list. *)
Definition CLI_HEADER : string := "Invalid agent specified: ".
Definition DEFAULTS_HEADER : string := "Invalid agent specified in default_agents: ".

(** A small registry and sample inputs used by the examples below. *)
Definition amp : IAgent := mkAgent "amp" "Amp".
Definition copilot : IAgent := mkAgent "copilot" "GitHub Copilot".
Definition claude : IAgent := mkAgent "claude" "Claude Code".
Definition registry : list IAgent := [amp; copilot; claude].

(** A CLI list whose only entry is written in upper case and names nothing. *)
Definition upperCaseCli : LoadedConfig := mkConfig (Some ["ZZZ"]) None ∅.

(** A CLI list, a default list and a per-agent flag, all at once. *)
Definition layeredConfig : LoadedConfig :=
  mkConfig (Some ["AMP"; "code"]) (Some ["copilot"])
           {[ "amp" := mkAgentConfig (Some false) None ]}.

(** No CLI list; a default list and two explicit flags. *)
Definition defaultsConfig : LoadedConfig :=
  mkConfig None (Some ["Copilot"])
           (<[ "amp" := mkAgentConfig (Some true) None ]>
              {[ "copilot" := mkAgentConfig (Some false) None ]}).

(** Neither list; one agent switched off. *)
Definition flagsOnlyConfig : LoadedConfig :=
  mkConfig (Some []) None {[ "claude" := mkAgentConfig (Some false) (Some "C.md") ]}.

(** Two raw entries: the first key occurs in two display names, the second
    names one of the two agents again. *)
Definition cfgA : IAgentConfig := mkAgentConfig (Some true) None.
Definition cfgB : IAgentConfig := mkAgentConfig (Some false) (Some "out.md").
Definition rawSample : list (string * IAgentConfig) := [("Co", cfgA); ("copilot", cfgB)].

(** A project without [AGENT.md] but with a left-over [AGENT.md.bak]. *)
Definition staleBackupFs : gmap string string := {[ "AGENT.md.bak" := "old" ]}.

(** A project with an [AGENT.md] written by hand. *)
Definition handWrittenFs : gmap string string := {[ "AGENT.md" := "Original content" ]}.

(** The same lists as [layeredConfig], typed in another mix of cases. *)
Definition layeredConfigShouting : LoadedConfig :=
  mkConfig (Some ["amp"; "CODE"]) (Some ["CoPilot"])
           {[ "amp" := mkAgentConfig (Some false) None ]}.

(** The CLI list of [layeredConfig] reordered, with a repetition. *)
Definition layeredConfigShuffled : LoadedConfig :=
  mkConfig (Some ["code"; "AMP"; "code"]) None ∅.

(** A CLI list with one more entry than [layeredConfig]. *)
Definition layeredConfigWider : LoadedConfig :=
  mkConfig (Some ["AMP"; "pilot"; "code"]) None ∅.

(** A CLI list holding the empty string. *)
Definition emptyFilterConfig : LoadedConfig := mkConfig (Some [""; "amp"]) None ∅.

(** A default list and settings that only carry output paths. *)
Definition plainDefaultsConfig : LoadedConfig :=
  mkConfig None (Some ["code"; "amp"])
           {[ "claude" := mkAgentConfig None (Some "C.md") ]}.

(** Neither list, and no agent switched off. *)
Definition nothingDisabledConfig : LoadedConfig :=
  mkConfig None (Some []) {[ "amp" := mkAgentConfig (Some true) None ]}.

(** Raw settings with a key that names no agent, and the same keys typed in
    another mix of cases. *)
Definition rawWithStranger : list (string * IAgentConfig) :=
  [("Co", cfgA); ("cursor", cfgB); ("copilot", cfgB)].
Definition rawSampleShouting : list (string * IAgentConfig) :=
  [("CO", cfgA); ("CoPilot", cfgB)].

(** Neither list; the settings come from one raw key that switches off
    every agent with [co] in its name. *)
Definition switchedOffByKey : LoadedConfig :=
  mkConfig None None (mapRawAgentConfigs [("Co", mkAgentConfig (Some false) None)] registry).

(** Fragments that differ from [f1] and [f2] in surrounding white space. *)
Definition f1Padded : RuleFile := mkRuleFile "/p/a.md" "X".
Definition f2Padded : RuleFile := mkRuleFile "/p/sub/b.md" (Js.LF +:+ "Y" +:+ Js.LF).

Definition f1 : RuleFile := mkRuleFile "/p/a.md" " X ".
Definition f2 : RuleFile := mkRuleFile "/p/sub/b.md" "Y".
Definition f3 : RuleFile := mkRuleFile "/q/c.md" "Z ".

(* ===================================================================== *)
(** ** Strings and arrays: basic facts                                   *)
(* ===================================================================== *)

Section StringFacts.

Lemma append_cons (c : ascii) (s t : string) :
  String c s +:+ t = String c (s +:+ t).
Proof. reflexivity. Qed.

Lemma append_nil_l (s : string) : "" +:+ s = s.
Proof. reflexivity. Qed.

Lemma append_nil_r (s : string) : s +:+ "" = s.
Proof.
  induction s as [|c s IH]; [done |]. by rewrite append_cons, IH.
Qed.

Lemma append_assoc (s t u : string) : (s +:+ t) +:+ u = s +:+ t +:+ u.
Proof.
  induction s as [|c s IH]; [done |]. by rewrite !append_cons, IH.
Qed.

Lemma startsWith_append (x q : string) : Js.startsWith (x +:+ q) x = true.
Proof.
  induction x as [|c x IH]; [done |].
  rewrite append_cons. cbn [Js.startsWith].
  by rewrite Ascii.eqb_refl, IH.
Qed.

Lemma includes_append_l (s x q : string) :
  Js.includes s x = true → Js.includes (s +:+ q) x = true.
Proof.
  revert x. induction s as [|c s IH]; intros x H.
  - destruct x; [by destruct q | done].
  - simpl in H. apply orb_true_iff in H as [H | H].
    + destruct x as [|b x]; [by destruct q |].
      apply andb_true_iff in H as [Hc Hx].
      change (String c s +:+ q) with (String c (s +:+ q)).
      cbn [Js.includes]. apply orb_true_iff. left.
      cbn [Js.startsWith]. rewrite Hc. simpl.
      clear IH Hc. revert x Hx. induction s as [|d s IHs]; intros x Hx.
      * destruct x; [by destruct q | done].
      * destruct x as [|e x]; [done |].
        simpl in Hx. apply andb_true_iff in Hx as [Hd Hx].
        simpl. rewrite Hd. simpl. by apply IHs.
    + change (String c s +:+ q) with (String c (s +:+ q)).
      cbn [Js.includes]. apply orb_true_iff. right. by apply IH.
Qed.

Lemma includes_append_r (p s x : string) :
  Js.includes s x = true → Js.includes (p +:+ s) x = true.
Proof.
  intros H. induction p as [|c p IH]; [done |].
  change (String c p +:+ s) with (String c (p +:+ s)).
  cbn [Js.includes]. apply orb_true_iff. by right.
Qed.

Lemma includes_refl (x : string) : Js.includes x x = true.
Proof.
  destruct x as [|c x]; [done |].
  cbn [Js.includes]. apply orb_true_iff. left.
  pose proof (startsWith_append (String c x) "") as H.
  by rewrite append_nil_r in H.
Qed.

(** A string placed between a prefix and a suffix occurs in the whole. *)
Lemma includes_middle (p x q : string) : Js.includes (p +:+ x +:+ q) x = true.
Proof. apply includes_append_r, includes_append_l, includes_refl. Qed.

Lemma join_cons (sep x : string) (l : list string) :
  l ≠ [] → Js.join sep (x :: l) = x +:+ sep +:+ Js.join sep l.
Proof. by destruct l. Qed.

(** [join] distributes over the append of two non-empty arrays. *)
Lemma join_app (sep : string) (l1 l2 : list string) :
  l1 ≠ [] → l2 ≠ [] →
  Js.join sep (l1 ++ l2) = Js.join sep l1 +:+ sep +:+ Js.join sep l2.
Proof.
  intros H1 H2. induction l1 as [|x l1 IH]; [done |].
  destruct l1 as [|y l1].
  - simpl (_ ++ _). by rewrite join_cons.
  - change ((x :: y :: l1) ++ l2) with (x :: ((y :: l1) ++ l2)).
    rewrite join_cons by done. rewrite IH by done.
    rewrite (join_cons sep x (y :: l1)) by done.
    by rewrite !append_assoc.
Qed.

(** Every element of a joined array occurs in the result. *)
Lemma includes_join (sep x : string) (l : list string) :
  x ∈ l → Js.includes (Js.join sep l) x = true.
Proof.
  induction l as [|y l IH]; intros H; [by apply elem_of_nil in H |].
  apply elem_of_cons in H as [-> | H].
  - destruct l as [|z l]; [apply includes_refl |].
    rewrite join_cons by done. apply includes_append_l, includes_refl.
  - destruct l as [|z l]; [by apply elem_of_nil in H |].
    rewrite join_cons by done. by apply includes_append_r, includes_append_r, IH.
Qed.

Lemma elem_of_foldl_Set_add (x : string) (l acc : list string) :
  x ∈ foldl Js.Set_add acc l ↔ x ∈ acc ∨ x ∈ l.
Proof.
  revert acc. induction l as [|y l IH]; intros acc; simpl.
  - rewrite elem_of_nil. tauto.
  - rewrite IH, elem_of_cons. unfold Js.Set_add. case_bool_decide as Hy.
    + split; [tauto |]. intros [H | [-> | H]]; tauto.
    + rewrite elem_of_app, list_elem_of_singleton. tauto.
Qed.

(** A [Set] built from an array has exactly the array's elements. *)
Lemma elem_of_new_Set (x : string) (l : list string) : x ∈ Js.new_Set l ↔ x ∈ l.
Proof.
  unfold Js.new_Set. rewrite elem_of_foldl_Set_add, elem_of_nil. tauto.
Qed.

(** The boolean array filter agrees with the filter by a decidable
    predicate whenever the callback decides that predicate. *)
Lemma List_filter_decide {A} (f : A → bool) (P : A → Prop)
    `{!∀ x, Decision (P x)} (l : list A) :
  (∀ x, x ∈ l → (f x = true ↔ P x)) → List.filter f l = filter P l.
Proof.
  induction l as [|x l IH]; intros Hf; [done |].
  simpl. rewrite filter_cons.
  assert (Hx : f x = true ↔ P x) by (apply Hf; left).
  rewrite IH by (intros y Hy; apply Hf; by right).
  destruct (f x) eqn:E; case_decide; try done.
  - exfalso. tauto.
  - assert (false = true) by tauto. done.
Qed.

Lemma existsb_Exists_iff {A} (f : A → bool) (P : A → Prop) (l : list A) :
  (∀ x, f x = true ↔ P x) → existsb f l = true ↔ Exists P l.
Proof.
  intros H. rewrite existsb_exists, Exists_exists.
  split; intros (x & Hx & Hp); exists x; rewrite list_elem_of_In in *;
    split; try done; by apply H.
Qed.

Lemma length_append (s t : string) :
  String.length (s +:+ t) = String.length s + String.length t.
Proof.
  induction s as [|c s IH]; [done |]. rewrite append_cons. simpl. by rewrite IH.
Qed.

(** A path never coincides with its own [.bak] artifact. *)
Lemma backup_path_fresh (p : string) : p +:+ ".bak" ≠ p.
Proof.
  intros H. apply (f_equal String.length) in H.
  rewrite length_append in H. simpl in H. lia.
Qed.

End StringFacts.

(* ===================================================================== *)
(** ** Facts about the selector's helpers                                *)
(* ===================================================================== *)

Section SelectorFacts.

Variable allAgents : list IAgent.

(** The selection callback decides [matchesEntry]. *)
Lemma agentMatches_spec (a : IAgent) (e : string) :
  agentMatches a (Js.toLowerCase e) = true ↔ matchesEntry a e.
Proof.
  unfold agentMatches, matchesEntry.
  by rewrite orb_true_iff, String.eqb_eq.
Qed.

Lemma Set_has_identifiers (f : string) :
  Js.Set_has (validAgentIdentifiers allAgents) f = true ↔
  ∃ a, a ∈ allAgents ∧ getIdentifier a = f.
Proof.
  unfold Js.Set_has, validAgentIdentifiers.
  rewrite bool_decide_eq_true, elem_of_new_Set.
  change (map getIdentifier allAgents) with (getIdentifier <$> allAgents).
  rewrite list_elem_of_fmap.
  split; intros (a & H1 & H2); exists a; by split.
Qed.

Lemma some_name_includes (f : string) :
  existsb (fun name => Js.includes name f) (validAgentNames allAgents) = true ↔
  ∃ a, a ∈ allAgents ∧ Js.includes (Js.toLowerCase (getName a)) f = true.
Proof.
  unfold validAgentNames. rewrite existsb_exists. split.
  - intros (name & Hin & Hinc).
    rewrite <- list_elem_of_In, elem_of_new_Set in Hin.
    change (map ?g allAgents) with (g <$> allAgents) in Hin.
    apply list_elem_of_fmap in Hin as (a & -> & Ha). eauto.
  - intros (a & Ha & Hinc). exists (Js.toLowerCase (getName a)).
    split; [| done]. rewrite <- list_elem_of_In, elem_of_new_Set.
    change (map ?g allAgents) with (g <$> allAgents).
    apply list_elem_of_fmap. eauto.
Qed.

(** Validation and selection use the same test: a filter passes the
    validation exactly when some agent of the registry matches it. *)
Lemma isInvalid_false (f : string) :
  isInvalid allAgents f = false ↔
  ∃ a, a ∈ allAgents ∧ agentMatches a f = true.
Proof.
  unfold isInvalid, agentMatches.
  rewrite andb_false_iff, !negb_false_iff, Set_has_identifiers, some_name_includes.
  split.
  - intros [(a & Ha & Hid) | (a & Ha & Hinc)]; exists a; split; try done.
    + apply orb_true_iff. left. by apply String.eqb_eq.
    + apply orb_true_iff. by right.
  - intros (a & Ha & Hm). apply orb_true_iff in Hm as [Hid | Hinc].
    + left. exists a. split; [done |]. by apply String.eqb_eq.
    + right. eauto.
Qed.

Lemma isInvalid_spec (e : string) :
  isInvalid allAgents (Js.toLowerCase e) = true ↔ ¬ entryValid allAgents e.
Proof.
  rewrite <- not_false_iff_true, isInvalid_false.
  unfold entryValid. rewrite Exists_exists.
  split; intros H (a & Ha & Hm); apply H; exists a; split; try done;
    by apply agentMatches_spec.
Qed.

(** The local [invalidAgents] holds the lower-cased forms of the entries
    that name no agent, in the order of the entries. *)
Lemma invalidAgents_lowered (entries : list string) :
  invalidAgents allAgents (map Js.toLowerCase entries) =
  map Js.toLowerCase (filter (fun e => ¬ entryValid allAgents e) entries).
Proof.
  unfold invalidAgents. induction entries as [|e entries IH]; [done |].
  simpl. rewrite filter_cons, IH.
  destruct (isInvalid allAgents (Js.toLowerCase e)) eqn:E; case_decide as Hd; try done.
  - by apply isInvalid_spec in E.
  - apply isInvalid_spec in Hd. congruence.
Qed.

Lemma invalidAgents_none (entries : list string) :
  Forall (entryValid allAgents) entries →
  invalidAgents allAgents (map Js.toLowerCase entries) = [].
Proof.
  intros H. rewrite invalidAgents_lowered.
  induction H as [|e entries He _ IH]; [done |].
  rewrite filter_cons. by case_decide.
Qed.

Lemma invalidAgents_some (entries : list string) (e : string) :
  e ∈ entries → ¬ entryValid allAgents e →
  ∃ x rest, invalidAgents allAgents (map Js.toLowerCase entries) = x :: rest.
Proof.
  intros Hin Hbad. rewrite invalidAgents_lowered.
  assert (Hf : e ∈ filter (fun e => ¬ entryValid allAgents e) entries)
    by (by apply list_elem_of_filter).
  destruct (filter _ entries) as [|y ys]; [by apply elem_of_nil in Hf |].
  simpl. eauto.
Qed.

(** The selection of the first tier, phrased with [matchesAny]. *)
Lemma tier1_filter (entries : list string) :
  List.filter (fun agent => existsb (agentMatches agent) (map Js.toLowerCase entries))
              allAgents =
  filter (fun a => matchesAny a entries) allAgents.
Proof.
  apply List_filter_decide. intros a _. unfold matchesAny.
  rewrite existsb_exists, Exists_exists. split.
  - intros (f & Hf & Hm). apply in_map_iff in Hf as (e & <- & He).
    exists e. split; [by apply list_elem_of_In | by apply agentMatches_spec].
  - intros (e & He & Hm). exists (Js.toLowerCase e). split.
    + apply in_map_iff. exists e. split; [done | by apply list_elem_of_In].
    + by apply agentMatches_spec.
Qed.

Lemma selectedByDefaults_spec (config : LoadedConfig) (entries : list string)
    (a : IAgent) :
  selectedByDefaults config (map Js.toLowerCase entries) a = true ↔
  tier2Selects config entries a.
Proof.
  unfold selectedByDefaults, tier2Selects.
  destruct (enabledOverride config (getIdentifier a)); [done |].
  unfold matchesAny. rewrite existsb_exists, Exists_exists. split.
  - intros (f & Hf & Hm). apply in_map_iff in Hf as (e & <- & He).
    exists e. split; [by apply list_elem_of_In | by apply agentMatches_spec].
  - intros (e & He & Hm). exists (Js.toLowerCase e). split.
    + apply in_map_iff. exists e. split; [done | by apply list_elem_of_In].
    + by apply agentMatches_spec.
Qed.

Lemma notDisabled_spec (config : LoadedConfig) (a : IAgent) :
  notDisabled config a = true ↔ tier3Selects config a.
Proof.
  unfold notDisabled, tier3Selects.
  destruct (enabledOverride config (getIdentifier a)) as [[]|]; naive_solver.
Qed.

(** An entry that is valid selects at least one agent. *)
Lemma valid_entry_selects (entries : list string) (e : string) :
  e ∈ entries → entryValid allAgents e →
  filter (fun a => matchesAny a entries) allAgents ≠ [].
Proof.
  intros He Hv Hnil. apply Exists_exists in Hv as (a & Ha & Hm).
  assert (Hin : a ∈ filter (fun a => matchesAny a entries) allAgents).
  { apply list_elem_of_filter. split; [| done].
    apply Exists_exists. eauto. }
  rewrite Hnil in Hin. by apply elem_of_nil in Hin.
Qed.

End SelectorFacts.

(** The three branches of [resolveSelectedAgents], one equation each. *)
Section ResolveBranches.

Variables (config : LoadedConfig) (allAgents : list IAgent).

Lemma nonEmpty_true (xs : option (list string)) (l : list string) :
  xs = Some l → l ≠ [] → nonEmpty xs = true ∧ elementsOf xs = l.
Proof. intros -> Hl. by destruct l. Qed.

Lemma nonEmpty_false (xs : option (list string)) :
  xs = None ∨ xs = Some [] → nonEmpty xs = false.
Proof. by intros [-> | ->]. Qed.

Lemma context_truthy (s : string) :
  String.eqb ("Valid agents are: " +:+ s) "" = false.
Proof. reflexivity. Qed.

Lemma thrown_message (header : string) (invalid : list string) :
  createRulerError (header +:+ Js.join ", " invalid)
    (Some ("Valid agents are: " +:+ Js.join ", " (validAgentIdentifiers allAgents))) =
  Js.mkError (ERROR_PREFIX +:+ " " +:+ header +:+ Js.join ", " invalid +:+
              " (Context: Valid agents are: " +:+
              Js.join ", " (validAgentIdentifiers allAgents) +:+ ")").
Proof.
  unfold createRulerError. rewrite context_truthy. f_equal.
  by rewrite !append_assoc.
Qed.

Lemma resolve_cli_valid (cli : list string) :
  cliAgents config = Some cli → cli ≠ [] → Forall (entryValid allAgents) cli →
  resolveSelectedAgents config allAgents =
  Js.Return (filter (fun a => matchesAny a cli) allAgents).
Proof.
  intros Hc Hne Hv. destruct (nonEmpty_true _ _ Hc Hne) as [Hn He].
  unfold resolveSelectedAgents. rewrite Hn, He.
  rewrite invalidAgents_none by done. simpl. by rewrite tier1_filter.
Qed.

Lemma resolve_cli_invalid (cli : list string) (e : string) :
  cliAgents config = Some cli → e ∈ cli → ¬ entryValid allAgents e →
  resolveSelectedAgents config allAgents =
  Js.Throw (createRulerError
    (CLI_HEADER +:+ Js.join ", " (invalidAgents allAgents (map Js.toLowerCase cli)))
    (Some ("Valid agents are: " +:+ Js.join ", " (validAgentIdentifiers allAgents)))).
Proof.
  intros Hc Hin Hbad.
  assert (Hne : cli ≠ []) by (intros ->; by apply elem_of_nil in Hin).
  destruct (nonEmpty_true _ _ Hc Hne) as [Hn He].
  unfold resolveSelectedAgents. rewrite Hn, He.
  destruct (invalidAgents_some allAgents cli e Hin Hbad) as (x & rest & ->).
  reflexivity.
Qed.

Lemma resolve_defaults_valid (dflt : list string) :
  cliAgents config = None ∨ cliAgents config = Some [] →
  defaultAgents config = Some dflt → dflt ≠ [] →
  Forall (entryValid allAgents) dflt →
  resolveSelectedAgents config allAgents =
  Js.Return (filter (tier2Selects config dflt) allAgents).
Proof.
  intros Hc Hd Hne Hv. destruct (nonEmpty_true _ _ Hd Hne) as [Hn He].
  unfold resolveSelectedAgents.
  rewrite (nonEmpty_false _ Hc), Hn, He.
  rewrite invalidAgents_none by done. simpl. f_equal.
  apply List_filter_decide. intros a _. apply selectedByDefaults_spec.
Qed.

Lemma resolve_defaults_invalid (dflt : list string) (e : string) :
  cliAgents config = None ∨ cliAgents config = Some [] →
  defaultAgents config = Some dflt → e ∈ dflt → ¬ entryValid allAgents e →
  resolveSelectedAgents config allAgents =
  Js.Throw (createRulerError
    (DEFAULTS_HEADER +:+ Js.join ", " (invalidAgents allAgents (map Js.toLowerCase dflt)))
    (Some ("Valid agents are: " +:+ Js.join ", " (validAgentIdentifiers allAgents)))).
Proof.
  intros Hc Hd Hin Hbad.
  assert (Hne : dflt ≠ []) by (intros ->; by apply elem_of_nil in Hin).
  destruct (nonEmpty_true _ _ Hd Hne) as [Hn He].
  unfold resolveSelectedAgents. rewrite (nonEmpty_false _ Hc), Hn, He.
  destruct (invalidAgents_some allAgents dflt e Hin Hbad) as (x & rest & ->).
  reflexivity.
Qed.

Lemma resolve_fallback :
  cliAgents config = None ∨ cliAgents config = Some [] →
  defaultAgents config = None ∨ defaultAgents config = Some [] →
  resolveSelectedAgents config allAgents =
  Js.Return (filter (tier3Selects config) allAgents).
Proof.
  intros Hc Hd. unfold resolveSelectedAgents.
  rewrite (nonEmpty_false _ Hc), (nonEmpty_false _ Hd). f_equal.
  apply List_filter_decide. intros a _. apply notDisabled_spec.
Qed.

End ResolveBranches.

(* ===================================================================== *)
(** ** The rule concatenator                                             *)
(* ===================================================================== *)

(** C6.  [concatenateRules([{path:'/p/a.md', content:' X '}], '/p')] is the
    string ["---\nSource: a.md\n---\nX\n"], whatever the working directory:
    the content is trimmed to ["X"] and the label is the path relative to
    the base directory, ["a.md"]. *)
Theorem C6_single_fragment_document (cwd : string) :
  concatenateRules cwd [mkRuleFile "/p/a.md" " X "] (Some "/p") =
    "---" +:+ Js.LF +:+ "Source: a.md" +:+ Js.LF +:+ "---" +:+ Js.LF +:+ "X" +:+ Js.LF
  ∧ Js.trim " X " = "X"
  ∧ NodePath.relative cwd "/p" "/p/a.md" = "a.md".
Proof. repeat split; reflexivity. Qed.

(** C7.  For non-empty fragment lists [A] and [B] and any base directory,
    the document of [A ++ B] is the document of [A], a single line feed,
    and the document of [B]: fragments keep their order and appending
    fragments appends their blocks. *)
Theorem C7_concatenateRules_append (cwd : string) (A B : list RuleFile)
    (baseDir : option string) :
  A ≠ [] → B ≠ [] →
  concatenateRules cwd (A ++ B) baseDir =
  concatenateRules cwd A baseDir +:+ Js.LF +:+ concatenateRules cwd B baseDir.
Proof.
  intros HA HB. unfold concatenateRules. cbv zeta.
  rewrite map_app. apply join_app.
  - by destruct A.
  - by destruct B.
Qed.

Lemma C7_concatenateRules_append_witness :
  [f1; f2] ≠ [] ∧ [f3] ≠ [] ∧
  concatenateRules "/home/u" ([f1; f2] ++ [f3]) (Some "/p") =
  concatenateRules "/home/u" [f1; f2] (Some "/p") +:+ Js.LF +:+
  concatenateRules "/home/u" [f3] (Some "/p").
Proof.
  split; [done |]. split; [done |].
  by apply (C7_concatenateRules_append "/home/u" [f1; f2] [f3] (Some "/p")).
Defined.

(** C10.  With no fragments the document is the empty string, for every
    working directory and every base directory. *)
Theorem C10_concatenateRules_empty (cwd : string) (baseDir : option string) :
  concatenateRules cwd [] baseDir = "".
Proof. reflexivity. Qed.

(* ===================================================================== *)
(** ** The agent selector                                                *)
(* ===================================================================== *)

(** C1.  With a non-empty CLI list whose entries all name some agent, the
    call returns the registry filtered by "matches at least one entry":
    exactly those agents, in registry order, none more often than the
    registry holds it (so each at most once when the registry, or its
    identifiers, are without repetition); and the result is the same for
    every default list and every table of per-agent settings. *)
Theorem C1_cli_filters_decide (config : LoadedConfig) (allAgents : list IAgent)
    (cli : list string) :
  cliAgents config = Some cli → cli ≠ [] →
  Forall (entryValid allAgents) cli →
  let selected := filter (fun a => matchesAny a cli) allAgents in
  resolveSelectedAgents config allAgents = Js.Return selected
  ∧ (∀ a, a ∈ selected ↔ a ∈ allAgents ∧ matchesAny a cli)
  ∧ selected `sublist_of` allAgents
  ∧ (NoDup allAgents → NoDup selected)
  ∧ (NoDup (getIdentifier <$> allAgents) → NoDup (getIdentifier <$> selected))
  ∧ (∀ defaults configs,
       resolveSelectedAgents (mkConfig (Some cli) defaults configs) allAgents =
       Js.Return selected).
Proof.
  intros Hc Hne Hv selected. split; [by apply resolve_cli_valid |].
  split; [intros a; unfold selected; rewrite list_elem_of_filter; tauto |].
  split; [apply sublist_filter |].
  split; [apply NoDup_filter |].
  split.
  { intros Hids. apply (sublist_NoDup _ _ Hids), fmap_sublist, sublist_filter. }
  intros defaults configs. by apply resolve_cli_valid.
Qed.

Lemma C1_cli_filters_decide_witness :
  resolveSelectedAgents layeredConfig registry = Js.Return [amp; claude].
Proof.
  refine (proj1 (C1_cli_filters_decide layeredConfig registry ["AMP"; "code"]
                   eq_refl _ _)).
  - done.
  - repeat constructor; vm_compute; tauto.
Defined.

(** C2, as stated, fails on an entry written in upper case: the CLI list
    [["ZZZ"]] names no agent of the registry, the call throws, and the
    message lists [zzz]; the entry [ZZZ] itself occurs nowhere in it. *)
Lemma C2_entry_not_listed_verbatim :
  "ZZZ" ∈ elementsOf (cliAgents upperCaseCli)
  ∧ ¬ entryValid registry "ZZZ"
  ∧ resolveSelectedAgents upperCaseCli registry =
      Js.Throw (Js.mkError
        "[ruler] Invalid agent specified: zzz (Context: Valid agents are: amp, copilot, claude)")
  ∧ Js.includes
      "[ruler] Invalid agent specified: zzz (Context: Valid agents are: amp, copilot, claude)"
      "ZZZ" = false.
Proof.
  split; [by apply list_elem_of_singleton |].
  split; [by apply isInvalid_spec |].
  split; reflexivity.
Qed.

(** C2, amended.  When the list in force (the CLI list if non-empty,
    otherwise the default list if non-empty) has an entry that names no
    agent, the call throws and selects nothing.  The message is the prefix,
    the header of that list, the lower-cased forms of exactly the entries
    that name no agent (in entry order, joined by [", "]) and, as context,
    the distinct agent identifiers in registry order.  Every such
    lower-cased entry and every identifier of the registry occurs in it. *)
Theorem C2_invalid_entries_throw (config : LoadedConfig) (allAgents : list IAgent)
    (entries : list string) (header : string) :
  (cliAgents config = Some entries ∧ header = CLI_HEADER) ∨
  ((cliAgents config = None ∨ cliAgents config = Some []) ∧
   defaultAgents config = Some entries ∧ header = DEFAULTS_HEADER) →
  (∃ e, e ∈ entries ∧ ¬ entryValid allAgents e) →
  let invalid :=
    map Js.toLowerCase (filter (fun e => ¬ entryValid allAgents e) entries) in
  let msg :=
    ERROR_PREFIX +:+ " " +:+ header +:+ Js.join ", " invalid +:+
    " (Context: Valid agents are: " +:+
    Js.join ", " (validAgentIdentifiers allAgents) +:+ ")" in
  resolveSelectedAgents config allAgents = Js.Throw (Js.mkError msg)
  ∧ (∀ e, e ∈ entries → (Js.toLowerCase e ∈ invalid ↔ ¬ entryValid allAgents e))
  ∧ (∀ x, x ∈ invalid → Js.includes msg x = true)
  ∧ (∀ a, a ∈ allAgents → Js.includes msg (getIdentifier a) = true).
Proof.
  intros Hlist (e & He & Hbad) invalid msg.
  split; [| split; [| split]].
  - unfold msg, invalid. rewrite <- invalidAgents_lowered, <- thrown_message.
    destruct Hlist as [[Hc ->] | (Hc & Hd & ->)].
    + by apply (resolve_cli_invalid config allAgents entries e).
    + by apply (resolve_defaults_invalid config allAgents entries e).
  - intros e' He'. unfold invalid.
    change (map Js.toLowerCase ?l) with (Js.toLowerCase <$> l).
    rewrite list_elem_of_fmap. split.
    + intros (e'' & Heq & Hin). apply list_elem_of_filter in Hin as [Hn _].
      rewrite <- isInvalid_spec in *. by rewrite Heq.
    + intros Hn. exists e'. split; [done |]. by apply list_elem_of_filter.
  - intros x Hx. unfold msg.
    rewrite <- !append_assoc. rewrite !append_assoc.
    do 3 apply includes_append_r. by apply includes_append_l, includes_join.
  - intros a Ha. unfold msg.
    do 5 apply includes_append_r. apply includes_append_l, includes_join.
    apply elem_of_new_Set.
    change (map getIdentifier allAgents) with (getIdentifier <$> allAgents).
    apply list_elem_of_fmap. eauto.
Qed.

Lemma C2_invalid_entries_throw_witness :
  resolveSelectedAgents upperCaseCli registry =
  Js.Throw (Js.mkError
    "[ruler] Invalid agent specified: zzz (Context: Valid agents are: amp, copilot, claude)").
Proof.
  refine (proj1 (C2_invalid_entries_throw upperCaseCli registry ["ZZZ"] CLI_HEADER _ _)).
  - left. split; reflexivity.
  - exists "ZZZ". split; [by apply list_elem_of_singleton | by apply isInvalid_spec].
Defined.

(** C8.  With a non-empty CLI list, a call that returns has selected at
    least one agent; it throws exactly when some entry names no agent, and
    returns exactly when every entry names one. *)
Theorem C8_cli_result_nonempty (config : LoadedConfig) (allAgents : list IAgent)
    (cli : list string) :
  cliAgents config = Some cli → cli ≠ [] →
  (∀ selected, resolveSelectedAgents config allAgents = Js.Return selected →
               selected ≠ [])
  ∧ ((∃ err, resolveSelectedAgents config allAgents = Js.Throw err) ↔
     ∃ e, e ∈ cli ∧ ¬ entryValid allAgents e)
  ∧ ((∃ selected, resolveSelectedAgents config allAgents = Js.Return selected) ↔
     Forall (entryValid allAgents) cli).
Proof.
  intros Hc Hne.
  destruct (decide (Forall (entryValid allAgents) cli)) as [Hv | Hv].
  - pose proof (resolve_cli_valid config allAgents cli Hc Hne Hv) as Hr.
    rewrite Hr. split; [| split].
    + intros selected [= <-]. destruct cli as [|e cli]; [done |].
      apply (valid_entry_selects allAgents (e :: cli) e); [left |].
      by apply Forall_cons in Hv as [? _].
    + split; [by intros (err & ?) |].
      intros (e & He & Hbad). rewrite Forall_forall in Hv. exfalso. by apply Hbad, Hv.
    + split; [done | eauto].
  - apply not_Forall_Exists in Hv; [| apply _].
    apply Exists_exists in Hv as (e & He & Hbad).
    pose proof (resolve_cli_invalid config allAgents cli e Hc He Hbad) as Hr.
    rewrite Hr. split; [| split].
    + by intros selected.
    + split; eauto.
    + split; [by intros (selected & ?) |].
      intros Hv. rewrite Forall_forall in Hv. exfalso. by apply Hbad, Hv.
Qed.

Lemma C8_cli_result_nonempty_witness :
  resolveSelectedAgents layeredConfig registry = Js.Return [amp; claude]
  ∧ [amp; claude] ≠ [].
Proof.
  split; [reflexivity |].
  refine (proj1 (C8_cli_result_nonempty layeredConfig registry ["AMP"; "code"]
                   eq_refl _) [amp; claude] eq_refl).
  done.
Defined.

(** C3.  With no CLI list (absent or empty) and a non-empty default list
    whose entries all name some agent, the call returns the registry
    filtered by the second tier.  For every agent of the registry: an
    explicit [enabled = false] keeps it out, an explicit [enabled = true]
    puts it in, and with [enabled] unset it is in exactly when it matches a
    default entry. *)
Theorem C3_defaults_with_overrides (config : LoadedConfig) (allAgents : list IAgent)
    (dflt : list string) :
  cliAgents config = None ∨ cliAgents config = Some [] →
  defaultAgents config = Some dflt → dflt ≠ [] →
  Forall (entryValid allAgents) dflt →
  let selected := filter (tier2Selects config dflt) allAgents in
  resolveSelectedAgents config allAgents = Js.Return selected
  ∧ selected `sublist_of` allAgents
  ∧ ∀ a, a ∈ allAgents →
      (enabledOverride config (getIdentifier a) = Some false → a ∉ selected)
      ∧ (enabledOverride config (getIdentifier a) = Some true → a ∈ selected)
      ∧ (enabledOverride config (getIdentifier a) = None →
         (a ∈ selected ↔ matchesAny a dflt)).
Proof.
  intros Hc Hd Hne Hv selected.
  split; [by apply resolve_defaults_valid |].
  split; [apply sublist_filter |].
  intros a Ha. unfold selected.
  rewrite !list_elem_of_filter. unfold tier2Selects.
  split; [| split]; intros ->.
  - by intros [Hflag _].
  - by split.
  - tauto.
Qed.

Lemma C3_defaults_with_overrides_witness :
  resolveSelectedAgents defaultsConfig registry = Js.Return [amp].
Proof.
  refine (proj1 (C3_defaults_with_overrides defaultsConfig registry ["Copilot"]
                   _ eq_refl _ _)).
  - by left.
  - done.
  - repeat constructor; vm_compute; tauto.
Defined.

(** C5.  With neither a CLI list nor a default list (each absent or
    empty), the call returns exactly the agents of the registry that are not
    explicitly disabled, in registry order. *)
Theorem C5_fallback_all_but_disabled (config : LoadedConfig) (allAgents : list IAgent) :
  cliAgents config = None ∨ cliAgents config = Some [] →
  defaultAgents config = None ∨ defaultAgents config = Some [] →
  let selected :=
    filter (fun a => enabledOverride config (getIdentifier a) ≠ Some false) allAgents in
  resolveSelectedAgents config allAgents = Js.Return selected
  ∧ selected `sublist_of` allAgents
  ∧ ∀ a, a ∈ selected ↔
         a ∈ allAgents ∧ enabledOverride config (getIdentifier a) ≠ Some false.
Proof.
  intros Hc Hd selected.
  split; [by apply resolve_fallback |].
  split; [apply sublist_filter |].
  intros a. unfold selected. rewrite list_elem_of_filter. tauto.
Qed.

Lemma C5_fallback_all_but_disabled_witness :
  resolveSelectedAgents flagsOnlyConfig registry = Js.Return [amp; copilot].
Proof.
  refine (proj1 (C5_fallback_all_but_disabled flagsOnlyConfig registry _ _)).
  - by right.
  - by left.
Defined.

(* ===================================================================== *)
(** ** The raw-config mapper                                             *)
(* ===================================================================== *)

Section MapperFacts.

Variable agents : list IAgent.

(** One entry of [raw] whose key matches an agent leaves that agent's
    identifier bound to the entry's settings. *)
Lemma assignEntry_hit (m : gmap string IAgentConfig) (key : string)
    (cfg : IAgentConfig) (a : IAgent) :
  a ∈ agents → matchesEntry a key →
  assignEntry agents m (key, cfg) !! getIdentifier a = Some cfg.
Proof.
  unfold assignEntry. intros Ha Hm. apply agentMatches_spec in Hm.
  induction agents as [|x l IH] using rev_ind; [by apply elem_of_nil in Ha |].
  rewrite foldl_snoc. cbv zeta.
  destruct (agentMatches x (Js.toLowerCase key)) eqn:Hx.
  - destruct (decide (getIdentifier x = getIdentifier a)) as [-> | Hne].
    + apply lookup_insert_eq.
    + rewrite lookup_insert_ne by done. apply IH.
      apply elem_of_app in Ha as [Ha | Ha]; [done |].
      apply list_elem_of_singleton in Ha. by subst.
  - apply IH. apply elem_of_app in Ha as [Ha | Ha]; [done |].
    apply list_elem_of_singleton in Ha. subst. congruence.
Qed.

(** An entry whose key matches no agent carrying the identifier [id]
    leaves the binding of [id] as it was. *)
Lemma assignEntry_miss (m : gmap string IAgentConfig) (key : string)
    (cfg : IAgentConfig) (id : string) :
  (∀ b, b ∈ agents → getIdentifier b = id → ¬ matchesEntry b key) →
  assignEntry agents m (key, cfg) !! id = m !! id.
Proof.
  unfold assignEntry. intros Hmiss.
  induction agents as [|x l IH] using rev_ind; [done |].
  rewrite foldl_snoc. cbv zeta.
  assert (Hl : ∀ b, b ∈ l → getIdentifier b = id → ¬ matchesEntry b key).
  { intros b Hb. apply Hmiss, elem_of_app. by left. }
  destruct (agentMatches x (Js.toLowerCase key)) eqn:Hx; [| by apply IH].
  destruct (decide (getIdentifier x = id)) as [Hid | Hne].
  - exfalso. apply (Hmiss x); [| done | by apply agentMatches_spec].
    apply elem_of_app. right. by apply list_elem_of_singleton.
  - rewrite lookup_insert_ne by done. by apply IH.
Qed.

Lemma foldl_assignEntry_miss (raw : list (string * IAgentConfig))
    (m : gmap string IAgentConfig) (id : string) :
  (∀ k c b, (k, c) ∈ raw → b ∈ agents → getIdentifier b = id →
            ¬ matchesEntry b k) →
  foldl (assignEntry agents) m raw !! id = m !! id.
Proof.
  revert m. induction raw as [|[k c] raw IH]; intros m Hmiss; [done |].
  simpl. rewrite IH.
  - apply assignEntry_miss. intros b Hb. apply (Hmiss k c b); [left | done].
  - intros k' c' b Hin. apply (Hmiss k' c' b). by right.
Qed.

End MapperFacts.

(** C9.  A single raw key whose lower-cased form occurs in the display name
    of several agents binds its settings to the identifier of each of them;
    and among several raw keys that match agents with one identifier, the
    settings of the key that comes last in the entry order are the ones
    kept, unchanged. *)
Theorem C9_mapper_fanout_and_last_wins :
  (∀ (key : string) (cfg : IAgentConfig) (agents : list IAgent) (a : IAgent),
      a ∈ agents →
      Js.includes (Js.toLowerCase (getName a)) (Js.toLowerCase key) = true →
      mapRawAgentConfigs [(key, cfg)] agents !! getIdentifier a = Some cfg)
  ∧ (∀ (raw1 raw2 : list (string * IAgentConfig)) (key : string)
       (cfg : IAgentConfig) (agents : list IAgent) (a : IAgent),
      a ∈ agents → matchesEntry a key →
      (∀ k c b, (k, c) ∈ raw2 → b ∈ agents →
                getIdentifier b = getIdentifier a → ¬ matchesEntry b k) →
      mapRawAgentConfigs (raw1 ++ (key, cfg) :: raw2) agents !! getIdentifier a
      = Some cfg).
Proof.
  split.
  - intros key cfg agents a Ha Hinc. unfold mapRawAgentConfigs. simpl.
    apply assignEntry_hit; [done |]. by right.
  - intros raw1 raw2 key cfg agents a Ha Hm Hlater.
    unfold mapRawAgentConfigs. rewrite foldl_app. simpl.
    rewrite foldl_assignEntry_miss by done. by apply assignEntry_hit.
Qed.

Lemma C9_mapper_fanout_and_last_wins_witness :
  mapRawAgentConfigs [("Co", cfgA)] registry !! "copilot" = Some cfgA
  ∧ mapRawAgentConfigs [("Co", cfgA)] registry !! "claude" = Some cfgA
  ∧ mapRawAgentConfigs rawSample registry !! "copilot" = Some cfgB.
Proof.
  destruct C9_mapper_fanout_and_last_wins as [Hfan Hlast].
  split; [| split].
  - apply (Hfan "Co" cfgA registry copilot); [| reflexivity].
    apply elem_of_cons. right. by left.
  - apply (Hfan "Co" cfgA registry claude); [| reflexivity].
    do 2 (apply elem_of_cons; right). by left.
  - apply (Hlast [("Co", cfgA)] [] "copilot" cfgB registry copilot).
    + apply elem_of_cons. right. by left.
    + by left.
    + intros k c b Hin. by apply elem_of_nil in Hin.
Defined.

(* ===================================================================== *)
(** ** Apply followed by revert                                          *)
(* ===================================================================== *)

(** C4, as stated, fails when a backup artifact is left over at an output
    path that holds no file: apply writes the rules, revert then restores
    the old artifact, and the project ends up with an [AGENT.md] it did not
    have before. *)
Lemma C4_stale_backup_is_restored :
  staleBackupFs !! "AGENT.md" = None
  ∧ Engine.revertAgent None false
      (Engine.applyAgent staleBackupFs "AGENT.md" "rules") "AGENT.md" !! "AGENT.md"
    = Some "old"
  ∧ Engine.revertAgent None false
      (Engine.applyAgent staleBackupFs "AGENT.md" "rules") "AGENT.md"
    ≠ staleBackupFs.
Proof.
  assert (Hrestored :
    Engine.revertAgent None false
      (Engine.applyAgent staleBackupFs "AGENT.md" "rules") "AGENT.md" !! "AGENT.md"
    = Some "old") by (vm_compute; reflexivity).
  split; [by vm_compute |]. split; [done |].
  intros Heq. rewrite Heq in Hrestored. by vm_compute in Hrestored.
Qed.

(** C4, amended.  Apply and then revert (default suffix, backups not
    kept) at one output path [p]:
    - if a file with content [C] was at [p], then afterwards [p] holds [C]
      again, no backup artifact is left, and every other path is untouched;
    - if neither a file at [p] nor a backup artifact of [p] was there, the
      file system is back to what it was: no generated file, no backup. *)
Theorem C4_apply_then_revert (fs : gmap string string) (p D : string) :
  let after := Engine.revertAgent None false (Engine.applyAgent fs p D) p in
  (∀ C, fs !! p = Some C →
        after !! p = Some C
        ∧ after !! Engine.backupPathOf None p = None
        ∧ ∀ q, q ≠ p → q ≠ Engine.backupPathOf None p → after !! q = fs !! q)
  ∧ (fs !! p = None → fs !! Engine.backupPathOf None p = None →
     after = fs ∧ after !! p = None ∧ after !! Engine.backupPathOf None p = None).
Proof.
  intros after. subst after.
  unfold Engine.revertAgent, Engine.applyAgent, Engine.writeGeneratedFile,
    Engine.backupFile, Engine.backupPathOf. simpl.
  pose proof (backup_path_fresh p) as Hfresh.
  split.
  - intros C HC. rewrite HC.
    rewrite lookup_insert_ne by done. rewrite lookup_insert_eq.
    split; [| split].
    + rewrite lookup_delete_ne by done. apply lookup_insert_eq.
    + apply lookup_delete_eq.
    + intros q Hq Hb. rewrite lookup_delete_ne by done.
      by rewrite !lookup_insert_ne by done.
  - intros Hp Hb. rewrite Hp.
    rewrite lookup_insert_ne by done. rewrite Hb, lookup_insert_eq.
    split; [| split].
    + rewrite delete_insert_eq. by apply delete_id.
    + apply lookup_delete_eq.
    + rewrite lookup_delete_ne by done. by rewrite lookup_insert_ne by done.
Qed.

Lemma C4_apply_then_revert_witness :
  Engine.revertAgent None false
    (Engine.applyAgent handWrittenFs "AGENT.md" "New rules") "AGENT.md" !! "AGENT.md"
  = Some "Original content".
Proof.
  refine (proj1 (proj1 (C4_apply_then_revert handWrittenFs "AGENT.md" "New rules")
                   "Original content" _)).
  reflexivity.
Defined.

(* ===================================================================== *)
(** ** Further properties of the error constructor and the selector      *)
(* ===================================================================== *)

Section MoreStringFacts.

Lemma lowerChar_idempotent (c : ascii) : Js.lowerChar (Js.lowerChar c) = Js.lowerChar c.
Proof. destruct c as [[] [] [] [] [] [] [] []]; reflexivity. Qed.

Lemma toLowerCase_idempotent (s : string) :
  Js.toLowerCase (Js.toLowerCase s) = Js.toLowerCase s.
Proof.
  induction s as [|c s IH]; [done |].
  simpl. by rewrite lowerChar_idempotent, IH.
Qed.

Lemma map_toLowerCase_idempotent (l : list string) :
  map Js.toLowerCase (map Js.toLowerCase l) = map Js.toLowerCase l.
Proof.
  rewrite map_map. apply map_ext. intros s. apply toLowerCase_idempotent.
Qed.

Lemma includes_empty (s : string) : Js.includes s "" = true.
Proof. by destruct s. Qed.

Lemma List_filter_sublist {A} (f : A → bool) (l : list A) :
  List.filter f l `sublist_of` l.
Proof.
  induction l as [|x l IH]; [done |].
  simpl. destruct (f x); by constructor.
Qed.

Lemma filter_sublist_mono {A} (P Q : A → Prop) `{!∀ x, Decision (P x)}
    `{!∀ x, Decision (Q x)} (l : list A) :
  (∀ x, P x → Q x) → filter P l `sublist_of` filter Q l.
Proof.
  intros HPQ. induction l as [|x l IH]; [done |].
  rewrite !filter_cons. destruct (decide (P x)) as [HP | HP].
  - rewrite decide_True by auto. by constructor.
  - destruct (decide (Q x)); [by constructor | done].
Qed.

Lemma filter_all {A} (P : A → Prop) `{!∀ x, Decision (P x)} (l : list A) :
  (∀ x, x ∈ l → P x) → filter P l = l.
Proof.
  induction l as [|x l IH]; intros Hall; [done |].
  rewrite filter_cons_True by (apply Hall; left).
  f_equal. apply IH. intros y Hy. apply Hall. by right.
Qed.

End MoreStringFacts.

(** The outcome of a call decides whether the list in force was valid. *)
Section ResolveInversion.

Variables (config : LoadedConfig) (allAgents : list IAgent).

Lemma resolve_cli_cases (cli : list string) :
  cliAgents config = Some cli → cli ≠ [] →
  (Forall (entryValid allAgents) cli ∧
   resolveSelectedAgents config allAgents =
   Js.Return (filter (fun a => matchesAny a cli) allAgents))
  ∨ (∃ err, resolveSelectedAgents config allAgents = Js.Throw err).
Proof.
  intros Hc Hne.
  destruct (decide (Forall (entryValid allAgents) cli)) as [Hv | Hv].
  - left. split; [done |]. by apply resolve_cli_valid.
  - right. apply not_Forall_Exists in Hv; [| apply _].
    apply Exists_exists in Hv as (e & He & Hbad).
    eexists. by apply (resolve_cli_invalid config allAgents cli e).
Qed.

Lemma resolve_cli_return_inv (cli : list string) (selected : list IAgent) :
  cliAgents config = Some cli → cli ≠ [] →
  resolveSelectedAgents config allAgents = Js.Return selected →
  Forall (entryValid allAgents) cli ∧
  selected = filter (fun a => matchesAny a cli) allAgents.
Proof.
  intros Hc Hne Hr.
  destruct (resolve_cli_cases cli Hc Hne) as [[Hv Hret] | [err Hthrow]]; [| congruence].
  split; [done |]. congruence.
Qed.

Lemma resolve_defaults_return_inv (dflt : list string) (selected : list IAgent) :
  cliAgents config = None ∨ cliAgents config = Some [] →
  defaultAgents config = Some dflt → dflt ≠ [] →
  resolveSelectedAgents config allAgents = Js.Return selected →
  Forall (entryValid allAgents) dflt ∧
  selected = filter (tier2Selects config dflt) allAgents.
Proof.
  intros Hc Hd Hne Hr.
  destruct (decide (Forall (entryValid allAgents) dflt)) as [Hv | Hv].
  - split; [done |].
    rewrite (resolve_defaults_valid config allAgents dflt Hc Hd Hne Hv) in Hr.
    congruence.
  - apply not_Forall_Exists in Hv; [| apply _].
    apply Exists_exists in Hv as (e & He & Hbad).
    rewrite (resolve_defaults_invalid config allAgents dflt e Hc Hd He Hbad) in Hr.
    done.
Qed.

End ResolveInversion.

(** X1.  Every message built by [createRulerError] starts with the prefix,
    a space and the given message; without a context (absent or empty)
    that is the whole message, and a non-empty context is appended in
    parentheses. *)
Theorem X1_error_message_shape (message : string) (context : option string) :
  Js.startsWith (Js.message (createRulerError message context))
                (ERROR_PREFIX +:+ " " +:+ message) = true
  ∧ (context = None ∨ context = Some "" →
     Js.message (createRulerError message context) = "[ruler] " +:+ message)
  ∧ (∀ c, context = Some c → c ≠ "" →
     Js.message (createRulerError message context) =
     "[ruler] " +:+ message +:+ " (Context: " +:+ c +:+ ")").
Proof.
  split; [| split].
  - unfold createRulerError.
    assert (Hplain : Js.startsWith (ERROR_PREFIX +:+ " " +:+ message)
                       (ERROR_PREFIX +:+ " " +:+ message) = true).
    { pose proof (startsWith_append (ERROR_PREFIX +:+ " " +:+ message) "") as H.
      by rewrite append_nil_r in H. }
    assert (Hctx : ∀ c, Js.startsWith
              (ERROR_PREFIX +:+ " " +:+ message +:+ " (Context: " +:+ c +:+ ")")
              (ERROR_PREFIX +:+ " " +:+ message) = true).
    { intros c.
      pose proof (startsWith_append (ERROR_PREFIX +:+ " " +:+ message)
                    (" (Context: " +:+ c +:+ ")")) as H.
      by rewrite !append_assoc in H. }
    destruct context as [c|]; [| done].
    destruct (String.eqb c ""); [done | apply Hctx].
  - by intros [-> | ->].
  - intros c -> Hc. unfold createRulerError.
    apply String.eqb_neq in Hc. by rewrite Hc.
Qed.

Lemma X1_error_message_shape_witness :
  Js.message (createRulerError "boom" (Some "why")) = "[ruler] boom (Context: why)".
Proof.
  refine (proj2 (proj2 (X1_error_message_shape "boom" (Some "why"))) "why" eq_refl _).
  done.
Defined.

(** X2.  Whatever the call throws is an invalid-agent error: the message
    starts with [[ruler] Invalid agent specified] and carries the list of
    valid agents as context; and nothing is thrown unless a CLI list or a
    default list is in force. *)
Theorem X2_only_invalid_agent_errors (config : LoadedConfig) (allAgents : list IAgent)
    (err : Js.Error) :
  resolveSelectedAgents config allAgents = Js.Throw err →
  Js.startsWith (Js.message err) "[ruler] Invalid agent specified" = true
  ∧ Js.includes (Js.message err) " (Context: Valid agents are: " = true
  ∧ (nonEmpty (cliAgents config) = true ∨ nonEmpty (defaultAgents config) = true).
Proof.
  unfold resolveSelectedAgents.
  destruct (nonEmpty (cliAgents config)).
  - destruct (0 <? _)%nat; [| done]. intros [= <-].
    change "Invalid agent specified: " with CLI_HEADER.
    rewrite thrown_message. cbn [Js.message].
    split; [reflexivity |]. split; [| by left].
    do 4 apply includes_append_r.
    apply (includes_middle "" " (Context: Valid agents are: ").
  - destruct (nonEmpty (defaultAgents config)); [| done].
    destruct (0 <? _)%nat; [| done]. intros [= <-].
    change "Invalid agent specified in default_agents: " with DEFAULTS_HEADER.
    rewrite thrown_message. cbn [Js.message].
    split; [reflexivity |]. split; [| by right].
    do 4 apply includes_append_r.
    apply (includes_middle "" " (Context: Valid agents are: ").
Qed.

Lemma X2_only_invalid_agent_errors_witness :
  Js.startsWith
    "[ruler] Invalid agent specified: zzz (Context: Valid agents are: amp, copilot, claude)"
    "[ruler] Invalid agent specified" = true.
Proof.
  refine (proj1 (X2_only_invalid_agent_errors upperCaseCli registry
                   (Js.mkError _) eq_refl)).
Defined.

(** X3.  Whatever the configuration, a call that returns yields a
    subsequence of the registry: no agent from outside, registry order,
    and no identifier twice when the registry has none twice. *)
Theorem X3_selection_is_subsequence (config : LoadedConfig) (allAgents : list IAgent)
    (selected : list IAgent) :
  resolveSelectedAgents config allAgents = Js.Return selected →
  selected `sublist_of` allAgents
  ∧ (∀ a, a ∈ selected → a ∈ allAgents)
  ∧ (NoDup (getIdentifier <$> allAgents) → NoDup (getIdentifier <$> selected)).
Proof.
  intros Hr.
  assert (Hsub : selected `sublist_of` allAgents).
  { revert Hr. unfold resolveSelectedAgents.
    repeat match goal with |- context [if ?b then _ else _] => destruct b end;
      intros [= <-]; apply List_filter_sublist. }
  split; [done |]. split.
  - intros a Ha. by eapply sublist_subseteq.
  - intros Hids. by apply (sublist_NoDup _ _ Hids), fmap_sublist.
Qed.

Lemma X3_selection_is_subsequence_witness :
  [amp] `sublist_of` registry.
Proof.
  refine (proj1 (X3_selection_is_subsequence defaultsConfig registry [amp] _)).
  reflexivity.
Defined.

Section MoreSelectorFacts.

Lemma nonEmpty_fmap (f : list string → list string) (xs : option (list string)) :
  (∀ l, length (f l) = length l) → nonEmpty (f <$> xs) = nonEmpty xs.
Proof.
  intros Hlen. destruct xs as [l|]; [| done]. simpl.
  specialize (Hlen l). destruct l, (f _); simpl in *; done.
Qed.

Lemma lowered_lists_agree (xs ys : option (list string)) :
  (map Js.toLowerCase <$> xs) = (map Js.toLowerCase <$> ys) →
  nonEmpty xs = nonEmpty ys ∧
  map Js.toLowerCase (elementsOf xs) = map Js.toLowerCase (elementsOf ys).
Proof.
  intros H. split.
  - rewrite <- (nonEmpty_fmap (map Js.toLowerCase) xs) by apply length_map.
    rewrite <- (nonEmpty_fmap (map Js.toLowerCase) ys) by apply length_map.
    by rewrite H.
  - destruct xs, ys; simpl in *; congruence.
Qed.

Lemma isInvalid_empty_registry (f : string) : isInvalid [] f = true.
Proof.
  destruct (isInvalid [] f) eqn:E; [done |].
  apply isInvalid_false in E as (a & Ha & _). by apply elem_of_nil in Ha.
Qed.

Lemma invalidAgents_empty_registry (filters : list string) :
  invalidAgents [] filters = filters.
Proof.
  unfold invalidAgents. induction filters as [|f l IH]; [done |].
  cbn [List.filter]. by rewrite isInvalid_empty_registry, IH.
Qed.

Lemma filter_ext_in {A} (P Q : A → Prop) `{!∀ x, Decision (P x)}
    `{!∀ x, Decision (Q x)} (l : list A) :
  (∀ x, x ∈ l → (P x ↔ Q x)) → filter P l = filter Q l.
Proof.
  induction l as [|x l IH]; intros Hext; [done |].
  rewrite !filter_cons.
  rewrite IH by (intros y Hy; apply Hext; by right).
  assert (Hx : P x ↔ Q x) by (apply Hext; left).
  destruct (decide (P x)), (decide (Q x)); tauto || done.
Qed.

Lemma matchesAny_mono (a : IAgent) (l1 l2 : list string) :
  (∀ e, e ∈ l1 → e ∈ l2) → matchesAny a l1 → matchesAny a l2.
Proof.
  unfold matchesAny. rewrite !Exists_exists.
  intros Hsub (e & He & Hm). exists e. auto.
Qed.

Lemma matchesEntry_empty (a : IAgent) : matchesEntry a "".
Proof. right. apply includes_empty. Qed.



End MoreSelectorFacts.

(** X4.  Against an empty registry every entry is invalid: a non-empty CLI
    list (or, without one, a non-empty default list) makes the call throw,
    listing all its lower-cased entries and an empty list of valid agents;
    with neither list the call returns no agent. *)
Theorem X4_empty_registry (config : LoadedConfig) :
  (∀ cli, cliAgents config = Some cli → cli ≠ [] →
     resolveSelectedAgents config [] =
     Js.Throw (Js.mkError
       ("[ruler] Invalid agent specified: " +:+
        Js.join ", " (map Js.toLowerCase cli) +:+
        " (Context: Valid agents are: )")))
  ∧ (∀ dflt, cliAgents config = None ∨ cliAgents config = Some [] →
     defaultAgents config = Some dflt → dflt ≠ [] →
     resolveSelectedAgents config [] =
     Js.Throw (Js.mkError
       ("[ruler] Invalid agent specified in default_agents: " +:+
        Js.join ", " (map Js.toLowerCase dflt) +:+
        " (Context: Valid agents are: )")))
  ∧ (cliAgents config = None ∨ cliAgents config = Some [] →
     defaultAgents config = None ∨ defaultAgents config = Some [] →
     resolveSelectedAgents config [] = Js.Return []).
Proof.
  split; [| split].
  - intros cli Hc Hne. destruct (nonEmpty_true _ _ Hc Hne) as [Hn He].
    unfold resolveSelectedAgents. rewrite Hn, He, invalidAgents_empty_registry.
    destruct cli as [|e cli]; [done |]. simpl (0 <? _)%nat. cbv iota.
    change "Invalid agent specified: " with CLI_HEADER.
    by rewrite thrown_message.
  - intros dflt Hc Hd Hne. destruct (nonEmpty_true _ _ Hd Hne) as [Hn He].
    unfold resolveSelectedAgents.
    rewrite (nonEmpty_false _ Hc), Hn, He, invalidAgents_empty_registry.
    destruct dflt as [|e dflt]; [done |]. simpl (0 <? _)%nat. cbv iota.
    change "Invalid agent specified in default_agents: " with DEFAULTS_HEADER.
    by rewrite thrown_message.
  - intros Hc Hd. unfold resolveSelectedAgents.
    by rewrite (nonEmpty_false _ Hc), (nonEmpty_false _ Hd).
Qed.

Lemma X4_empty_registry_witness :
  resolveSelectedAgents layeredConfig [] =
  Js.Throw (Js.mkError
    "[ruler] Invalid agent specified: amp, code (Context: Valid agents are: )").
Proof.
  refine (proj1 (X4_empty_registry layeredConfig) ["AMP"; "code"] eq_refl _).
  done.
Defined.

(** X5.  The selector is insensitive to the case of the entries: two
    configurations whose CLI lists and default lists agree after
    lower-casing, with the same per-agent settings, give the same outcome,
    the error message included. *)
Theorem X5_entries_case_insensitive (c1 c2 : LoadedConfig) (allAgents : list IAgent) :
  (map Js.toLowerCase <$> cliAgents c1) = (map Js.toLowerCase <$> cliAgents c2) →
  (map Js.toLowerCase <$> defaultAgents c1) =
    (map Js.toLowerCase <$> defaultAgents c2) →
  agentConfigs c1 = agentConfigs c2 →
  resolveSelectedAgents c1 allAgents = resolveSelectedAgents c2 allAgents.
Proof.
  intros Hc Hd Ha.
  destruct (lowered_lists_agree _ _ Hc) as [Hcn Hce].
  destruct (lowered_lists_agree _ _ Hd) as [Hdn Hde].
  unfold resolveSelectedAgents. rewrite Hcn, Hce, Hdn, Hde.
  destruct (nonEmpty (cliAgents c2)); [done |].
  destruct (nonEmpty (defaultAgents c2)).
  - destruct (0 <? _)%nat; [done |]. f_equal.
    apply List.filter_ext. intros a.
    unfold selectedByDefaults, enabledOverride. by rewrite Ha.
  - f_equal. apply List.filter_ext. intros a.
    unfold notDisabled, enabledOverride. by rewrite Ha.
Qed.

Lemma X5_entries_case_insensitive_witness :
  resolveSelectedAgents layeredConfig registry =
  resolveSelectedAgents layeredConfigShouting registry.
Proof.
  apply (X5_entries_case_insensitive layeredConfig layeredConfigShouting registry);
    reflexivity.
Defined.

(** X6.  Only the set of CLI entries matters for the selection: if one CLI
    list makes the call return, any CLI list with the same entries, in
    whatever order and with whatever repetitions, returns the same
    agents. *)
Theorem X6_cli_order_and_repetition_irrelevant (c1 c2 : LoadedConfig)
    (allAgents : list IAgent) (cli1 cli2 : list string) (selected : list IAgent) :
  cliAgents c1 = Some cli1 → cliAgents c2 = Some cli2 → cli1 ≠ [] →
  (∀ e, e ∈ cli1 ↔ e ∈ cli2) →
  resolveSelectedAgents c1 allAgents = Js.Return selected →
  resolveSelectedAgents c2 allAgents = Js.Return selected.
Proof.
  intros H1 H2 Hne Hsame Hr.
  destruct (resolve_cli_return_inv c1 allAgents cli1 selected H1 Hne Hr) as [Hv ->].
  assert (Hne2 : cli2 ≠ []).
  { destruct cli1 as [|e l]; [done |]. intros ->.
    apply (elem_of_nil e), Hsame. by left. }
  rewrite (resolve_cli_valid c2 allAgents cli2 H2 Hne2).
  - f_equal. apply list_filter_iff. intros a.
    split; apply matchesAny_mono; intros e; apply Hsame.
  - rewrite Forall_forall in *. intros e He. apply Hv. by apply Hsame.
Qed.

Lemma X6_cli_order_and_repetition_irrelevant_witness :
  resolveSelectedAgents layeredConfigShuffled registry = Js.Return [amp; claude].
Proof.
  refine (X6_cli_order_and_repetition_irrelevant layeredConfig layeredConfigShuffled
            registry ["AMP"; "code"] ["code"; "AMP"; "code"] [amp; claude]
            eq_refl eq_refl _ _ eq_refl).
  - done.
  - intros e. rewrite !elem_of_cons, !elem_of_nil. tauto.
Defined.

(** X7.  More CLI entries never select fewer agents: if both calls return
    and every entry of the first CLI list is in the second, the first
    selection is a subsequence of the second. *)
Theorem X7_cli_selection_monotone (c1 c2 : LoadedConfig) (allAgents : list IAgent)
    (cli1 cli2 : list string) (s1 s2 : list IAgent) :
  cliAgents c1 = Some cli1 → cliAgents c2 = Some cli2 → cli1 ≠ [] →
  (∀ e, e ∈ cli1 → e ∈ cli2) →
  resolveSelectedAgents c1 allAgents = Js.Return s1 →
  resolveSelectedAgents c2 allAgents = Js.Return s2 →
  s1 `sublist_of` s2.
Proof.
  intros H1 H2 Hne Hsub Hr1 Hr2.
  assert (Hne2 : cli2 ≠ []).
  { destruct cli1 as [|e l]; [done |]. intros ->.
    apply (elem_of_nil e), Hsub. by left. }
  destruct (resolve_cli_return_inv c1 allAgents cli1 s1 H1 Hne Hr1) as [_ ->].
  destruct (resolve_cli_return_inv c2 allAgents cli2 s2 H2 Hne2 Hr2) as [_ ->].
  apply filter_sublist_mono. intros a. by apply matchesAny_mono.
Qed.

Lemma X7_cli_selection_monotone_witness :
  [amp; claude] `sublist_of` [amp; copilot; claude].
Proof.
  refine (X7_cli_selection_monotone layeredConfig layeredConfigWider registry
            ["AMP"; "code"] ["AMP"; "pilot"; "code"] [amp; claude] [amp; copilot; claude]
            eq_refl eq_refl _ _ eq_refl eq_refl).
  - done.
  - intros e. rewrite !elem_of_cons, !elem_of_nil. tauto.
Defined.

(** X8.  The empty string occurs in every display name, so a CLI list that
    holds it selects the whole registry whenever the call returns; and the
    call does return when the registry is non-empty and the other entries
    are valid. *)
Theorem X8_empty_filter_selects_all (config : LoadedConfig) (allAgents : list IAgent)
    (cli : list string) :
  cliAgents config = Some cli → "" ∈ cli →
  (∀ selected, resolveSelectedAgents config allAgents = Js.Return selected →
               selected = allAgents)
  ∧ (allAgents ≠ [] → Forall (entryValid allAgents) cli →
     resolveSelectedAgents config allAgents = Js.Return allAgents).
Proof.
  intros Hc Hin.
  assert (Hne : cli ≠ []) by (intros ->; by apply elem_of_nil in Hin).
  assert (Hall : filter (fun a => matchesAny a cli) allAgents = allAgents).
  { apply filter_all. intros a _. apply Exists_exists.
    exists "". split; [done | apply matchesEntry_empty]. }
  split.
  - intros selected Hr.
    destruct (resolve_cli_return_inv config allAgents cli selected Hc Hne Hr) as [_ ->].
    done.
  - intros _ Hv. by rewrite (resolve_cli_valid config allAgents cli Hc Hne Hv), Hall.
Qed.

Lemma X8_empty_filter_selects_all_witness :
  resolveSelectedAgents emptyFilterConfig registry = Js.Return registry.
Proof.
  refine (proj2 (X8_empty_filter_selects_all emptyFilterConfig registry [""; "amp"]
                   eq_refl _) _ _).
  - by left.
  - done.
  - repeat constructor; vm_compute; tauto.
Defined.

(** X9.  Without explicit [enabled] flags for the agents of the registry, a
    default list selects what the same list would select as a CLI list:
    either call returns a selection exactly when the other returns it. *)
Theorem X9_defaults_act_as_cli_without_flags (config : LoadedConfig)
    (allAgents : list IAgent) (dflt : list string) (selected : list IAgent) :
  cliAgents config = None ∨ cliAgents config = Some [] →
  defaultAgents config = Some dflt → dflt ≠ [] →
  (∀ a, a ∈ allAgents → enabledOverride config (getIdentifier a) = None) →
  resolveSelectedAgents config allAgents = Js.Return selected ↔
  resolveSelectedAgents (mkConfig (Some dflt) None ∅) allAgents = Js.Return selected.
Proof.
  intros Hc Hd Hne Hflags.
  assert (Hsame : filter (tier2Selects config dflt) allAgents =
                  filter (fun a => matchesAny a dflt) allAgents).
  { apply filter_ext_in. intros a Ha. unfold tier2Selects. by rewrite Hflags. }
  split; intros Hr.
  - destruct (resolve_defaults_return_inv config allAgents dflt selected Hc Hd Hne Hr)
      as [Hv ->].
    rewrite Hsame. by apply resolve_cli_valid.
  - destruct (resolve_cli_return_inv (mkConfig (Some dflt) None ∅) allAgents dflt
                selected eq_refl Hne Hr) as [Hv ->].
    rewrite <- Hsame. by apply resolve_defaults_valid.
Qed.

Lemma X9_defaults_act_as_cli_without_flags_witness :
  resolveSelectedAgents (mkConfig (Some ["code"; "amp"]) None ∅) registry =
  Js.Return [amp; claude].
Proof.
  refine (proj1 (X9_defaults_act_as_cli_without_flags plainDefaultsConfig registry
                   ["code"; "amp"] [amp; claude] _ eq_refl _ _) eq_refl).
  - by left.
  - done.
  - intros a Ha. repeat (apply elem_of_cons in Ha as [-> | Ha]; [reflexivity |]).
    by apply elem_of_nil in Ha.
Defined.

(** X10.  With neither list in force and no agent of the registry
    explicitly disabled, the call returns the whole registry unchanged. *)
Theorem X10_fallback_selects_everyone (config : LoadedConfig) (allAgents : list IAgent) :
  cliAgents config = None ∨ cliAgents config = Some [] →
  defaultAgents config = None ∨ defaultAgents config = Some [] →
  (∀ a, a ∈ allAgents → enabledOverride config (getIdentifier a) ≠ Some false) →
  resolveSelectedAgents config allAgents = Js.Return allAgents.
Proof.
  intros Hc Hd Hon. rewrite resolve_fallback by done.
  f_equal. by apply filter_all.
Qed.

Lemma X10_fallback_selects_everyone_witness :
  resolveSelectedAgents nothingDisabledConfig registry = Js.Return registry.
Proof.
  apply (X10_fallback_selects_everyone nothingDisabledConfig registry).
  - by left.
  - by right.
  - intros a Ha. repeat (apply elem_of_cons in Ha as [-> | Ha]; [done |]).
    by apply elem_of_nil in Ha.
Defined.

(** X11.  Selecting is idempotent under a CLI list and in the fallback:
    running the selector again, with the same configuration, on the agents
    it returned returns them again. *)
Theorem X11_selection_idempotent (config : LoadedConfig) (allAgents : list IAgent)
    (selected : list IAgent) :
  nonEmpty (cliAgents config) = true ∨
  (nonEmpty (cliAgents config) = false ∧ nonEmpty (defaultAgents config) = false) →
  resolveSelectedAgents config allAgents = Js.Return selected →
  resolveSelectedAgents config selected = Js.Return selected.
Proof.
  intros [Hcli | [Hc Hd]] Hr.
  - destruct (cliAgents config) as [[|e cli]|] eqn:Hc; try done.
    destruct (resolve_cli_return_inv config allAgents (e :: cli) selected Hc
                ltac:(done) Hr) as [Hv ->].
    rewrite (resolve_cli_valid config _ (e :: cli) Hc ltac:(done)).
    + f_equal. by apply list_filter_filter_l.
    + rewrite Forall_forall in *. intros f Hf.
      specialize (Hv f Hf). unfold entryValid in *.
      rewrite Exists_exists in *. destruct Hv as (a & Ha & Hm).
      exists a. split; [| done]. apply list_elem_of_filter. split; [| done].
      apply Exists_exists. eauto.
  - assert (Hc' : cliAgents config = None ∨ cliAgents config = Some [])
      by (destruct (cliAgents config) as [[|]|]; auto; done).
    assert (Hd' : defaultAgents config = None ∨ defaultAgents config = Some [])
      by (destruct (defaultAgents config) as [[|]|]; auto; done).
    rewrite resolve_fallback in Hr by done. injection Hr as <-.
    rewrite resolve_fallback by done. f_equal. by apply list_filter_filter_l.
Qed.

Lemma X11_selection_idempotent_witness :
  resolveSelectedAgents layeredConfig [amp; claude] = Js.Return [amp; claude].
Proof.
  apply (X11_selection_idempotent layeredConfig registry [amp; claude]).
  - by left.
  - reflexivity.
Defined.



(* ===================================================================== *)
(** ** Further properties of the raw-config mapper                       *)
(* ===================================================================== *)

Section MoreMapperFacts.

Variable agents : list IAgent.

(** What one entry does to the binding of an identifier. *)
Lemma assignEntry_lookup (m : gmap string IAgentConfig) (key : string)
    (cfg : IAgentConfig) (id : string) :
  assignEntry agents m (key, cfg) !! id =
  if decide (keyHits agents id key) then Some cfg else m !! id.
Proof.
  case_decide as Hhit.
  - apply Exists_exists in Hhit as (b & Hb & <- & Hm). by apply assignEntry_hit.
  - apply assignEntry_miss. intros b Hb Hid Hm. apply Hhit, Exists_exists. eauto.
Qed.

Lemma foldl_assignEntry_cons (m : gmap string IAgentConfig)
    (entry : string * IAgentConfig) (raw : list (string * IAgentConfig)) :
  foldl (assignEntry agents) m (entry :: raw) =
  foldl (assignEntry agents) (assignEntry agents m entry) raw.
Proof. reflexivity. Qed.

Lemma mapRawAgentConfigs_snoc (raw : list (string * IAgentConfig)) (key : string)
    (cfg : IAgentConfig) :
  mapRawAgentConfigs (raw ++ [(key, cfg)]) agents =
  assignEntry agents (mapRawAgentConfigs raw agents) (key, cfg).
Proof. unfold mapRawAgentConfigs. by rewrite foldl_snoc. Qed.

(** An entry whose key matches no agent changes nothing. *)
Lemma assignEntry_stranger (m : gmap string IAgentConfig) (key : string)
    (cfg : IAgentConfig) :
  (∀ b, b ∈ agents → ¬ matchesEntry b key) → assignEntry agents m (key, cfg) = m.
Proof.
  intros Hno. apply map_eq. intros id. apply assignEntry_miss.
  intros b Hb _. by apply Hno.
Qed.

(** Entries act through the lower-cased key only. *)
Lemma assignEntry_lowered (m : gmap string IAgentConfig) (k1 k2 : string)
    (cfg : IAgentConfig) :
  Js.toLowerCase k1 = Js.toLowerCase k2 →
  assignEntry agents m (k1, cfg) = assignEntry agents m (k2, cfg).
Proof. intros H. unfold assignEntry. by rewrite H. Qed.

Lemma unique_identifier (a b : IAgent) :
  NoDup (getIdentifier <$> agents) → a ∈ agents → b ∈ agents →
  getIdentifier a = getIdentifier b → a = b.
Proof.
  induction agents as [|x l IH]; intros Hnd Ha Hb Heq; [by apply elem_of_nil in Ha |].
  rewrite fmap_cons in Hnd. apply NoDup_cons in Hnd as [Hx Hl].
  apply elem_of_cons in Ha as [-> | Ha]; apply elem_of_cons in Hb as [-> | Hb]; try done.
  - exfalso. apply Hx. rewrite Heq. apply list_elem_of_fmap. eauto.
  - exfalso. apply Hx. rewrite <- Heq. apply list_elem_of_fmap. eauto.
  - by apply IH.
Qed.

End MoreMapperFacts.

(** X13.  The result binds an identifier exactly when some raw key reaches
    it: it is unbound iff no key of [raw] matches an agent carrying it, and
    a bound identifier belongs to an agent of the list and holds the
    settings of a raw entry whose key matches that agent. *)
Theorem X13_mapper_bindings (raw : list (string * IAgentConfig))
    (agents : list IAgent) (id : string) :
  (mapRawAgentConfigs raw agents !! id = None ↔
   ∀ k c, (k, c) ∈ raw → ¬ keyHits agents id k)
  ∧ (∀ cfg, mapRawAgentConfigs raw agents !! id = Some cfg →
       (∃ a, a ∈ agents ∧ getIdentifier a = id)
       ∧ ∃ k, (k, cfg) ∈ raw ∧ keyHits agents id k).
Proof.
  induction raw as [|[k c] raw [IHnone IHsome]] using rev_ind.
  - split.
    + split; [intros _ k c Hin; by apply elem_of_nil in Hin | done].
    + intros cfg H. unfold mapRawAgentConfigs in H. simpl in H.
      by rewrite lookup_empty in H.
  - rewrite mapRawAgentConfigs_snoc, assignEntry_lookup. split.
    + case_decide as Hhit.
      * split; [done |]. intros Hno. exfalso. apply (Hno k c); [| done].
        apply elem_of_app. right. by left.
      * rewrite IHnone. split.
        -- intros Hno k' c' Hin. apply elem_of_app in Hin as [Hin | Hin]; [by eapply Hno |].
           apply list_elem_of_singleton in Hin. by injection Hin as -> ->.
        -- intros Hno k' c' Hin. apply (Hno k' c'), elem_of_app. by left.
    + intros cfg. case_decide as Hhit.
      * intros [= <-]. split.
        -- apply Exists_exists in Hhit as (b & Hb & Hid & _). eauto.
        -- exists k. split; [| done]. apply elem_of_app. right. by left.
      * intros H. destruct (IHsome cfg H) as [Ha (k' & Hin & Hk')].
        split; [done |]. exists k'. split; [| done]. apply elem_of_app. by left.
Qed.

Lemma X13_mapper_bindings_witness :
  (∃ a, a ∈ registry ∧ getIdentifier a = "claude")
  ∧ ∃ k, (k, cfgA) ∈ rawSample ∧ keyHits registry "claude" k.
Proof.
  refine (proj2 (X13_mapper_bindings rawSample registry "claude") cfgA _).
  reflexivity.
Defined.

(** X14.  Raw keys that match no agent are dropped without a trace: the
    result is the same as if the entry were not there.  In particular no
    raw entries, or no agents, give the empty record. *)
Theorem X14_mapper_drops_unknown_keys :
  (∀ (raw1 raw2 : list (string * IAgentConfig)) (key : string) (cfg : IAgentConfig)
     (agents : list IAgent),
     (∀ b, b ∈ agents → ¬ matchesEntry b key) →
     mapRawAgentConfigs (raw1 ++ (key, cfg) :: raw2) agents =
     mapRawAgentConfigs (raw1 ++ raw2) agents)
  ∧ (∀ agents, mapRawAgentConfigs [] agents = ∅)
  ∧ (∀ raw, mapRawAgentConfigs raw [] = ∅).
Proof.
  split; [| split].
  - intros raw1 raw2 key cfg agents Hno. unfold mapRawAgentConfigs.
    rewrite !foldl_app, foldl_assignEntry_cons. by rewrite assignEntry_stranger.
  - done.
  - intros raw. unfold mapRawAgentConfigs.
    induction raw as [|[k c] raw IH] using rev_ind; [done |].
    rewrite foldl_snoc. by rewrite IH.
Qed.

Lemma X14_mapper_drops_unknown_keys_witness :
  mapRawAgentConfigs rawWithStranger registry = mapRawAgentConfigs rawSample registry.
Proof.
  refine (proj1 X14_mapper_drops_unknown_keys [("Co", cfgA)] [("copilot", cfgB)]
            "cursor" cfgB registry _).
  intros b Hb Hm. apply agentMatches_spec in Hm. revert Hm.
  repeat (apply elem_of_cons in Hb as [-> | Hb]; [by vm_compute |]).
  by apply elem_of_nil in Hb.
Defined.

(** X15.  Raw keys are case-insensitive: two entry lists whose keys agree
    after lower-casing, entry by entry, with the same settings, map to the
    same record. *)
Theorem X15_mapper_keys_case_insensitive (raw1 raw2 : list (string * IAgentConfig))
    (agents : list IAgent) :
  Forall2 (fun x y => Js.toLowerCase x.1 = Js.toLowerCase y.1 ∧ x.2 = y.2) raw1 raw2 →
  mapRawAgentConfigs raw1 agents = mapRawAgentConfigs raw2 agents.
Proof.
  unfold mapRawAgentConfigs. generalize (∅ : gmap string IAgentConfig).
  intros m H. revert m.
  induction H as [|[k1 c1] [k2 c2] l1 l2 [Hk Hc] _ IH]; intros m; [done |].
  simpl in Hk, Hc. subst c2. rewrite !foldl_assignEntry_cons.
  by rewrite (assignEntry_lowered agents m k1 k2 c1 Hk), IH.
Qed.

Lemma X15_mapper_keys_case_insensitive_witness :
  mapRawAgentConfigs rawSample registry = mapRawAgentConfigs rawSampleShouting registry.
Proof.
  apply (X15_mapper_keys_case_insensitive rawSample rawSampleShouting registry).
  repeat constructor.
Defined.

(** X16.  The mapper feeds the selector: with neither list in force, in a
    registry without repeated identifiers, settings mapped from a single
    raw entry with [enabled = false] switch off exactly the agents the key
    matches; the call returns all the others. *)
Theorem X16_raw_key_switches_off_matches (config : LoadedConfig)
    (allAgents : list IAgent) (key : string) (cfg : IAgentConfig) :
  NoDup (getIdentifier <$> allAgents) →
  cliAgents config = None ∨ cliAgents config = Some [] →
  defaultAgents config = None ∨ defaultAgents config = Some [] →
  agentConfigs config = mapRawAgentConfigs [(key, cfg)] allAgents →
  enabled cfg = Some false →
  resolveSelectedAgents config allAgents =
  Js.Return (filter (fun a => ¬ matchesEntry a key) allAgents).
Proof.
  intros Hids Hc Hd Hmap Hoff. rewrite resolve_fallback by done. f_equal.
  apply filter_ext_in. intros a Ha.
  unfold tier3Selects, enabledOverride. rewrite Hmap.
  change [(key, cfg)] with ([] ++ [(key, cfg)]).
  rewrite mapRawAgentConfigs_snoc, assignEntry_lookup.
  case_decide as Hhit.
  - rewrite Hoff. split; [done |]. intros Hno. exfalso. apply Hno.
    apply Exists_exists in Hhit as (b & Hb & Hid & Hm).
    by rewrite <- (unique_identifier allAgents b a Hids Hb Ha Hid).
  - split; [| done]. intros _ Hm. apply Hhit, Exists_exists. eauto.
Qed.

Lemma X16_raw_key_switches_off_matches_witness :
  resolveSelectedAgents switchedOffByKey registry = Js.Return [amp].
Proof.
  apply (X16_raw_key_switches_off_matches switchedOffByKey registry "Co"
           (mkAgentConfig (Some false) None)).
  - refine (bool_decide_unpack _ _). by vm_compute.
  - by left.
  - by left.
  - reflexivity.
  - reflexivity.
Defined.

(* ===================================================================== *)
(** ** Further properties of the rule concatenator                       *)
(* ===================================================================== *)

Section TrimFacts.

(** What [trimStart] returns is empty or starts with a visible character. *)
Lemma trimStart_head (s : string) :
  Js.trimStart s = "" ∨
  ∃ c t, Js.trimStart s = String c t ∧ Js.isWhiteSpace c = false.
Proof.
  induction s as [|c s IH]; [by left |].
  simpl. destruct (Js.isWhiteSpace c) eqn:E; [done |]. right. eauto.
Qed.

Lemma trimEnd_visible_head (c : ascii) (t : string) :
  Js.isWhiteSpace c = false → Js.trimEnd (String c t) = String c (Js.trimEnd t).
Proof. intros E. simpl. rewrite E. by destruct (Js.trimEnd t). Qed.

Lemma trimEnd_cons (c : ascii) (s : string) :
  Js.trimEnd (String c s) =
  match Js.trimEnd s with
  | EmptyString => if Js.isWhiteSpace c then EmptyString else String c EmptyString
  | t => String c t
  end.
Proof. reflexivity. Qed.

Lemma trimEnd_idempotent (s : string) : Js.trimEnd (Js.trimEnd s) = Js.trimEnd s.
Proof.
  induction s as [|c s IH]; [done |].
  rewrite trimEnd_cons. destruct (Js.trimEnd s) as [|d u] eqn:E.
  - destruct (Js.isWhiteSpace c) eqn:Ec; [done |].
    by rewrite trimEnd_visible_head.
  - by rewrite trimEnd_cons, IH.
Qed.

(** [trim] is idempotent. *)
Lemma trim_idempotent (s : string) : Js.trim (Js.trim s) = Js.trim s.
Proof.
  unfold Js.trim. destruct (trimStart_head s) as [-> | (c & t & -> & Hc)]; [done |].
  rewrite trimEnd_visible_head by done.
  cbn [Js.trimStart]. rewrite Hc.
  rewrite <- trimEnd_visible_head by done. apply trimEnd_idempotent.
Qed.

End TrimFacts.

Section SectionFacts.

Variables (cwd base : string).

(** A section written out: separator, label, separator, trimmed content,
    each followed by a line feed. *)
Lemma section_of_shape (f : RuleFile) :
  section_of base cwd f =
  "---" +:+ Js.LF +:+ "Source: " +:+ NodePath.relative cwd base (path f) +:+ Js.LF +:+
  "---" +:+ Js.LF +:+ Js.trim (content f) +:+ Js.LF.
Proof.
  unfold section_of. cbv zeta. cbn [Js.join].
  by rewrite !append_assoc, append_nil_r.
Qed.

Lemma join_head (sep x : string) (l : list string) :
  ∃ q, Js.join sep (x :: l) = x +:+ q.
Proof.
  destruct l as [|y l]; [exists ""; by rewrite append_nil_r |].
  eexists. by rewrite join_cons.
Qed.

Lemma join_last (sep x : string) (l : list string) :
  ∃ p, Js.join sep (l ++ [x]) = p +:+ x.
Proof.
  induction l as [|y l [p IH]]; [by exists "" |].
  exists (y +:+ sep +:+ p). rewrite <- app_comm_cons.
  rewrite join_cons by (by destruct l). by rewrite IH, !append_assoc.
Qed.

End SectionFacts.

(** X17.  The document depends on the contents only up to surrounding
    white space: fragment lists with the same paths and the same trimmed
    contents give the same document; in particular trimming the contents
    beforehand changes nothing. *)
Theorem X17_document_ignores_outer_whitespace (cwd : string) (baseDir : option string) :
  (∀ files1 files2,
     Forall2 (fun f g => path f = path g ∧
                         Js.trim (content f) = Js.trim (content g)) files1 files2 →
     concatenateRules cwd files1 baseDir = concatenateRules cwd files2 baseDir)
  ∧ (∀ files,
     concatenateRules cwd
       (map (fun f => mkRuleFile (path f) (Js.trim (content f))) files) baseDir =
     concatenateRules cwd files baseDir).
Proof.
  assert (Hgen : ∀ files1 files2,
     Forall2 (fun f g => path f = path g ∧
                         Js.trim (content f) = Js.trim (content g)) files1 files2 →
     concatenateRules cwd files1 baseDir = concatenateRules cwd files2 baseDir).
  { intros files1 files2 H. unfold concatenateRules. cbv zeta. f_equal.
    induction H as [|f g l1 l2 [Hp Hc] _ IH]; [done |].
    cbn [map]. rewrite IH. f_equal. unfold section_of. cbv zeta. by rewrite Hp, Hc. }
  split; [done |].
  intros files. apply Hgen.
  induction files as [|f files IH]; constructor; [| done].
  split; [done |]. apply trim_idempotent.
Qed.

Lemma X17_document_ignores_outer_whitespace_witness :
  concatenateRules "/home/u" [f1; f2] (Some "/p") =
  concatenateRules "/home/u" [f1Padded; f2Padded] (Some "/p").
Proof.
  apply (proj1 (X17_document_ignores_outer_whitespace "/home/u" (Some "/p"))).
  repeat constructor.
Defined.

(** X18.  A document of at least one fragment starts with the separator
    line and the label of the first fragment, and ends with a line feed
    right after the trimmed content of the last fragment. *)
Theorem X18_document_frame (cwd : string) (baseDir : option string)
    (first last : RuleFile) (files middle : list RuleFile) :
  (∃ rest, concatenateRules cwd (first :: files) baseDir =
       "---" +:+ Js.LF +:+ "Source: " +:+
       NodePath.relative cwd (baseOf cwd baseDir) (path first) +:+ Js.LF +:+ rest)
  ∧ ∃ front, concatenateRules cwd (middle ++ [last]) baseDir =
       front +:+ Js.trim (content last) +:+ Js.LF.
Proof.
  unfold concatenateRules. cbv zeta. split.
  - cbn [map].
    destruct (join_head Js.LF (section_of (baseOf cwd baseDir) cwd first)
                (map (section_of (baseOf cwd baseDir) cwd) files)) as [q ->].
    rewrite section_of_shape.
    eexists. by rewrite !append_assoc.
  - rewrite map_app. cbn [map].
    destruct (join_last Js.LF (section_of (baseOf cwd baseDir) cwd last)
                (map (section_of (baseOf cwd baseDir) cwd) middle)) as [p ->].
    rewrite section_of_shape.
    exists (p +:+ "---" +:+ Js.LF +:+ "Source: " +:+
            NodePath.relative cwd (baseOf cwd baseDir) (path last) +:+ Js.LF +:+
            "---" +:+ Js.LF).
    by rewrite !append_assoc.
Qed.

Section PathFacts.

Lemma split_nonempty (sep : ascii) (s : string) :
  ∃ seg rest, Js.split sep s = seg :: rest.
Proof.
  induction s as [|c s (seg & rest & IH)]; [by eexists _, _ |].
  simpl. rewrite IH. destruct (Ascii.eqb c sep); by eexists _, _.
Qed.

(** Splitting at a separator splits the two sides independently. *)
Lemma split_append_sep (sep : ascii) (s t : string) :
  Js.split sep (s +:+ String sep t) = Js.split sep s ++ Js.split sep t.
Proof.
  induction s as [|c s IH].
  - rewrite append_nil_l. simpl. by rewrite Ascii.eqb_refl.
  - rewrite append_cons. cbn [Js.split]. rewrite IH.
    destruct (Ascii.eqb c sep); [done |].
    by destruct (split_nonempty sep s) as (seg & rest & ->).
Qed.

Lemma includes_slash_cons (c : ascii) (s : string) :
  Js.includes (String c s) "/" = Ascii.eqb c "/" || Js.includes s "/".
Proof. cbn [Js.includes Js.startsWith]. by rewrite andb_true_r. Qed.

Lemma split_plain (s : string) :
  Js.includes s "/" = false → Js.split NodePath.SEP s = [s].
Proof.
  induction s as [|c s IH]; [done |].
  rewrite includes_slash_cons. intros H. apply orb_false_iff in H as [Hc Hs].
  cbn [Js.split]. unfold NodePath.SEP in *. by rewrite Hc, IH.
Qed.

Lemma split_join_plain (segs : list string) :
  segs ≠ [] → Forall plainSegment segs →
  Js.split NodePath.SEP (Js.join "/" segs) = segs.
Proof.
  intros Hne Hplain. induction Hplain as [|x l [Hx _] Hl IH]; [done |].
  destruct l as [|y l]; [by apply split_plain |].
  rewrite join_cons by done.
  change ("/" +:+ Js.join "/" (y :: l)) with (String NodePath.SEP (Js.join "/" (y :: l))).
  rewrite split_append_sep, split_plain by done. by rewrite IH.
Qed.

Lemma pushSegment_plain (stack : list string) (seg : string) :
  plainSegment seg → NodePath.pushSegment stack seg = seg :: stack.
Proof.
  intros (_ & H0 & H1 & H2). unfold NodePath.pushSegment.
  apply String.eqb_neq in H0, H1, H2. by rewrite H0, H1, H2.
Qed.

Lemma foldl_pushSegment_plain (segs stack : list string) :
  Forall plainSegment segs →
  foldl NodePath.pushSegment stack segs = rev segs ++ stack.
Proof.
  intros H. revert stack. induction H as [|x l Hx _ IH]; intros stack; [done |].
  cbn [foldl]. change (foldl NodePath.pushSegment stack (x :: l))
    with (foldl NodePath.pushSegment (NodePath.pushSegment stack x) l).
  rewrite pushSegment_plain by done. rewrite IH. simpl. by rewrite <- app_assoc.
Qed.

(** Plain segments appended to a path survive normalisation unchanged. *)
Lemma normalizeSegments_plain (l segs : list string) :
  Forall plainSegment segs →
  NodePath.normalizeSegments (l ++ segs) = NodePath.normalizeSegments l ++ segs.
Proof.
  intros H. unfold NodePath.normalizeSegments.
  rewrite foldl_app, foldl_pushSegment_plain by done.
  by rewrite rev_app_distr, rev_involutive.
Qed.

Lemma isAbsolute_append (base x : string) :
  base ≠ "" → NodePath.isAbsolute (base +:+ x) = NodePath.isAbsolute base.
Proof. by destruct base. Qed.

Lemma dropCommon_prefix (l r : list string) :
  NodePath.dropCommon l (l ++ r) = ([], r).
Proof.
  induction l as [|x l IH]; [by destruct r |].
  simpl. by rewrite String.eqb_refl.
Qed.

Lemma resolve_below (cwd base : string) (segs : list string) :
  base ≠ "" → segs ≠ [] → Forall plainSegment segs →
  NodePath.resolve cwd (base +:+ "/" +:+ Js.join "/" segs) =
  NodePath.resolve cwd base ++ segs.
Proof.
  intros Hb Hne Hplain. unfold NodePath.resolve.
  rewrite isAbsolute_append by done.
  change ("/" +:+ Js.join "/" segs) with (String NodePath.SEP (Js.join "/" segs)).
  rewrite split_append_sep, split_join_plain by done.
  destruct (NodePath.isAbsolute base).
  - by apply normalizeSegments_plain.
  - rewrite app_assoc. by apply normalizeSegments_plain.
Qed.

(** The path from a directory to something below it is the part below. *)
Lemma relative_below (cwd base : string) (segs : list string) :
  base ≠ "" → segs ≠ [] → Forall plainSegment segs →
  NodePath.relative cwd base (base +:+ "/" +:+ Js.join "/" segs) = Js.join "/" segs.
Proof.
  intros Hb Hne Hplain. unfold NodePath.relative.
  by rewrite resolve_below, dropCommon_prefix by done.
Qed.

End PathFacts.

(** X19.  A fragment that lies below the base directory, at the base path
    followed by plain segments, is labelled with exactly those segments:
    the document of this single fragment is the separator, [Source: ] and
    the segments joined by [/], the separator, the trimmed content, each
    line closed by a line feed. *)
Theorem X19_label_below_base (cwd base text : string) (segs : list string) :
  base ≠ "" → segs ≠ [] → Forall plainSegment segs →
  concatenateRules cwd [mkRuleFile (base +:+ "/" +:+ Js.join "/" segs) text] (Some base) =
  "---" +:+ Js.LF +:+ "Source: " +:+ Js.join "/" segs +:+ Js.LF +:+
  "---" +:+ Js.LF +:+ Js.trim text +:+ Js.LF.
Proof.
  intros Hb Hne Hplain. unfold concatenateRules. cbv zeta. cbn [map Js.join].
  rewrite section_of_shape. cbn [path content].
  assert (Hbase : baseOf cwd (Some base) = base).
  { unfold baseOf. apply String.eqb_neq in Hb. by rewrite Hb. }
  by rewrite Hbase, relative_below.
Qed.

Lemma X19_label_below_base_witness :
  concatenateRules "/home/u" [mkRuleFile "rules/sub/b.md" " Y "] (Some "rules") =
  "---" +:+ Js.LF +:+ "Source: sub/b.md" +:+ Js.LF +:+ "---" +:+ Js.LF +:+ "Y" +:+ Js.LF.
Proof.
  refine (X19_label_below_base "/home/u" "rules" " Y " ["sub"; "b.md"] _ _ _).
  - done.
  - done.
  - repeat constructor; done.
Defined.
